(** * Shallow embedding of quest/viz.py (typogenetics)

    The three analyses of [quest/viz.py]: the production graph built with
    networkx's [DiGraph] ([render_production_graph]), the pool composition
    ([render_pool_composition]) and the bounded cycle table
    ([render_cycle_analysis]).  Drawing calls are left out; every value the
    drawing consumes is computed here as in the source.  Python [int]s are
    [Z]; strand identifiers are [string]s; Python dicts (which keep insertion
    order) are association lists with that order. *)

From Stdlib Require Import String List ZArith Lia Bool Permutation Sorted Finite.
Import ListNotations.
Open Scope Z_scope.
Open Scope string_scope.
Open Scope list_scope.

(** ** Association lists as insertion-ordered Python dicts *)

Module Dict.

(** [d.get(k)]: the value under [k], if any. *)
Fixpoint get {V} (k : string) (d : list (string * V)) : option V :=
  match d with
  | [] => None
  | (k', v) :: d' => if String.eqb k k' then Some v else get k d'
  end.

(** [d.get(k, dflt)]. *)
Definition get_d {V} (k : string) (dflt : V) (d : list (string * V)) : V :=
  match get k d with Some v => v | None => dflt end.

(** [k in d]. *)
Definition mem {V} (k : string) (d : list (string * V)) : bool :=
  match get k d with Some _ => true | None => false end.

(** [d[k] = v]: an existing key keeps its position, a new key goes last. *)
Fixpoint set {V} (k : string) (v : V) (d : list (string * V)) : list (string * V) :=
  match d with
  | [] => [(k, v)]
  | (k', v') :: d' => if String.eqb k k' then (k, v) :: d' else (k', v') :: set k v d'
  end.

Definition keys {V} (d : list (string * V)) : list string := map fst d.

End Dict.

(** ** networkx [DiGraph]

    networkx keeps three dicts with the same keys in the same order:
    [_node], [_succ] (= [_adj]) and [_pred]; [G.nodes] iterates [_node],
    which we read off [_succ].  [_succ[u][v]] and [_pred[v][u]] share the
    edge-data dict, whose only attribute here is [weight]. *)

Record digraph := mkG {
  succ : list (string * list (string * Z));
  pred : list (string * list (string * Z))
}.

Definition empty_graph : digraph := mkG [] [].

(** [G.nodes] *)
Definition nodes (g : digraph) : list string := Dict.keys (succ g).

(** [G.add_edge(u, v, weight=w)]:
    {v
    if u not in self._succ: self._succ[u] = {}; self._pred[u] = {}; self._node[u] = {}
    if v not in self._succ: (same for v)
    datadict = self._adj[u].get(v, {}); datadict.update(weight=w)
    self._succ[u][v] = datadict; self._pred[v][u] = datadict
    v} *)
Definition add_node (u : string) (g : digraph) : digraph :=
  if Dict.mem u (succ g) then g
  else mkG (succ g ++ [(u, [])]) (pred g ++ [(u, [])]).

Definition add_edge (u v : string) (w : Z) (g : digraph) : digraph :=
  let g1 := add_node v (add_node u g) in
  mkG (Dict.set u (Dict.set v w (Dict.get_d u [] (succ g1))) (succ g1))
      (Dict.set v (Dict.set u w (Dict.get_d v [] (pred g1))) (pred g1)).

(** [G[u][v]['weight']] (a [KeyError] is [None]). *)
Definition edge_weight (g : digraph) (u v : string) : option Z :=
  match Dict.get u (succ g) with
  | Some nbrs => Dict.get v nbrs
  | None => None
  end.

(** [G.has_edge(u, v)] *)
Definition has_edge (g : digraph) (u v : string) : bool :=
  match edge_weight g u v with Some _ => true | None => false end.

(** [G.edges]: for u in nodes, for v in _succ[u]. *)
Definition graph_edges (g : digraph) : list (string * string) :=
  flat_map (fun u => map (fun v => (u, v)) (Dict.keys (Dict.get_d u [] (succ g))))
           (nodes g).

(** ** The input record *)

Record ProductionEdge := mkEdge { catalyst : string; product : string; count : Z }.

Record Snapshot := mkSnap {
  op : Z;
  pool : list (string * Z);
  poolSize : Z;
  uniqueCount : Z
}.

Record SimulationResult := mkResult {
  productionEdges : list ProductionEdge;
  snapshots : list Snapshot
}.

(** {v
    G = nx.DiGraph()
    for e in edges:
        G.add_edge(e['catalyst'], e['product'], weight=e['count'])
    v} *)
Definition build_graph (edges : list ProductionEdge) : digraph :=
  fold_left (fun g e => add_edge (catalyst e) (product e) (count e) g) edges empty_graph.

(** ** [render_production_graph] *)

(** [G.degree()] of a [DiGraph]: [len(succ[n]) + len(pred[n])], in node order. *)
Definition degrees (g : digraph) : list (string * Z) :=
  map (fun n => (n, Z.of_nat (length (Dict.get_d n [] (succ g)))
                    + Z.of_nat (length (Dict.get_d n [] (pred g)))))
      (nodes g).

(** [G.in_degree()]: [len(pred[n])]. *)
Definition in_degrees (g : digraph) : list (string * Z) :=
  map (fun n => (n, Z.of_nat (length (Dict.get_d n [] (pred g))))) (nodes g).

(** Python [max] of a non-empty list of ints. *)
Definition py_max (x : Z) (xs : list Z) : Z := fold_left Z.max xs x.

(** [max(d.values()) if d else 1] *)
Definition max_or_1 (d : list (string * Z)) : Z :=
  match map snd d with
  | [] => 1
  | x :: xs => py_max x xs
  end.

Definition max_deg (g : digraph) : Z := max_or_1 (degrees g).
Definition max_in (g : digraph) : Z := max_or_1 (in_degrees g).

(** {v
    mutual_edges = []
    for u, v in G.edges:
        if G.has_edge(v, u):
            mutual_edges.append((u, v))
    v} *)
Definition mutual_edges (g : digraph) : list (string * string) :=
  filter (fun '(u, v) => has_edge g v u) (graph_edges g).

(** What [render_production_graph] hands to the drawing calls: the graph,
    node sizes and colours as the ratios [degree / max_deg] and
    [in_degree / max_in] (kept as numerator/denominator pairs), and the
    mutual edges. *)
Record GraphBundle := mkGraphBundle {
  gb_graph : digraph;
  gb_size_ratio : list (Z * Z);
  gb_color_ratio : list (Z * Z);
  gb_mutual : list (string * string)
}.

(** The graph of [render_production_graph]: nothing when [edges] is empty
    (early return) or when the graph has no node (second early return). *)
Definition production_graph (edges : list ProductionEdge) : option digraph :=
  match edges with
  | [] => None
  | _ =>
    let G := fold_left (fun g e => add_edge (catalyst e) (product e) (count e) g)
                       edges empty_graph in
    match nodes G with
    | [] => None
    | _ => Some G
    end
  end.

Definition render_production_graph (r : SimulationResult) : option GraphBundle :=
  match production_graph (productionEdges r) with
  | None => None
  | Some G =>
    let md := max_deg G in
    let mi := max_in G in
    Some (mkGraphBundle G
            (map (fun n => (Dict.get_d n 0 (degrees G), md)) (nodes G))
            (map (fun n => (Dict.get_d n 0 (in_degrees G), mi)) (nodes G))
            (mutual_edges G))
  end.

(** ** Python's [list.sort(key=..., reverse=True)] / [sorted(..., reverse=True)]

    A stable sort on descending keys: items with equal keys keep their
    input order (Python documents that [reverse=True] keeps stability).
    Written as an insertion sort: each item goes after every item already
    placed whose key is not smaller. *)

Section SortDesc.
Context {A : Type} (key : A -> Z).

Fixpoint insert_desc (x : A) (l : list A) : list A :=
  match l with
  | [] => [x]
  | y :: l' => if Z.ltb (key y) (key x) then x :: y :: l' else y :: insert_desc x l'
  end.

Definition sort_desc (l : list A) : list A :=
  fold_left (fun acc x => insert_desc x acc) l [].

End SortDesc.

(** ** [render_pool_composition] *)

(** [snap['pool'].get(s, 0)] *)
Definition pool_get (snap : Snapshot) (s : string) : Z := Dict.get_d s 0 (pool snap).

(** [max(snap['pool'].get(s, 0) for snap in snapshots)]; only evaluated on
    at least two snapshots. *)
Definition strand_max (snaps : list Snapshot) (s : string) : Z :=
  match snaps with
  | [] => 0
  | sn :: rest => py_max (pool_get sn s) (map (fun sn' => pool_get sn' s) rest)
  end.

(** [all_strands] is a Python [set] of strings; its iteration order depends
    on string hashing, which CPython randomizes per process.  The model takes
    that iteration order as an argument; [set_iteration snaps order] says that
    [order] lists the set: every key of every pool, once. *)
Definition set_iteration (snaps : list Snapshot) (order : list string) : Prop :=
  NoDup order /\
  (forall s, In s order <-> exists sn, In sn snaps /\ In s (Dict.keys (pool sn))).

Definition TOP_N : nat := 20.

(** [sorted(all_strands, key=lambda s: strand_max[s], reverse=True)[:TOP_N]] *)
Definition top_strands (snaps : list Snapshot) (order : list string) : list string :=
  firstn TOP_N (sort_desc (strand_max snaps) order).

(** [{s: [snap['pool'].get(s, 0) for snap in snapshots] for s in top_strands}] *)
Definition strand_counts (snaps : list Snapshot) (top : list string)
  : list (string * list Z) :=
  fold_left (fun d s => Dict.set s (map (fun sn => pool_get sn s) snaps) d) top [].

(** {v
    for i, snap in enumerate(snapshots):
        total = snap['poolSize']
        top_total = sum(strand_counts[s][i] for s in top_strands)
        other.append(total - top_total)
    v} *)
Definition other_series (snaps : list Snapshot) (top : list string)
           (sc : list (string * list Z)) : list Z :=
  map (fun '(i, snap) =>
         poolSize snap
         - fold_left Z.add (map (fun s => nth i (Dict.get_d s [] sc) 0) top) 0)
      (combine (seq 0 (length snaps)) snaps).

Record CompositionBundle := mkCompBundle {
  cb_ops : list Z;
  cb_top : list string;
  cb_series : list (list Z);
  cb_other : list Z;
  cb_pool_sizes : list Z;
  cb_unique_counts : list Z
}.

(** [None] is the early return [if len(snapshots) < 2: ... return]. *)
Definition render_pool_composition (r : SimulationResult) (order : list string)
  : option CompositionBundle :=
  let snaps := snapshots r in
  if (length snaps <? 2)%nat then None
  else
    let top := top_strands snaps order in
    let sc := strand_counts snaps top in
    Some (mkCompBundle
            (map op snaps)
            top
            (map (fun s => Dict.get_d s [] sc) top)
            (other_series snaps top sc)
            (map poolSize snaps)
            (map uniqueCount snaps)).

(** ** [render_cycle_analysis] *)

Definition str_mem (x : string) (l : list string) : bool := existsb (String.eqb x) l.

(** [nx.simple_cycles(G, length_bound)] comes from networkx, not from this
    repository.  It is modelled by its documented contract: every simple
    cycle (no node twice) with at most [length_bound] nodes, self-loops
    included as one-node cycles, each cycle once up to rotation.  The model
    searches depth-first from each node [s] in [G.nodes] order through nodes
    that come after [s], so each cycle is listed from its first node in
    node order.  [search g allowed s k path cur]: [path] is the current simple
    path from [s] to [cur]; [k] counts the nodes that may still be added,
    plus one. *)
Fixpoint search (g : digraph) (allowed : list string) (s : string) (k : nat)
         (path : list string) (cur : string) : list (list string) :=
  match k with
  | O => []
  | S k' =>
    (if has_edge g cur s then [path] else [])
    ++ flat_map (fun v =>
                   if str_mem v allowed && negb (str_mem v path)
                   then search g allowed s k' (path ++ [v]) v
                   else [])
                (Dict.keys (Dict.get_d cur [] (succ g)))
  end.

Fixpoint cycles_from (g : digraph) (L : nat) (ns : list string) : list (list string) :=
  match ns with
  | [] => []
  | s :: rest => search g rest s L [s] s ++ cycles_from g L rest
  end.

Definition simple_cycles (g : digraph) (length_bound : nat) : list (list string) :=
  cycles_from g length_bound (nodes g).

(** {v
    total_w = 0
    for i in range(len(cycle)):
        u, v = cycle[i], cycle[(i + 1) % len(cycle)]
        total_w += G[u][v]['weight']
    v}
    [None] is the [KeyError] of a missing edge. *)
Definition cycle_weight (g : digraph) (cycle : list string) : option Z :=
  let n := length cycle in
  fold_left (fun acc i =>
               match acc with
               | None => None
               | Some t =>
                 match edge_weight g (nth i cycle "") (nth ((i + 1) mod n)%nat cycle "") with
                 | Some w => Some (t + w)
                 | None => None
                 end
               end)
            (seq 0 n) (Some 0).

(** {v
    cycles = []
    try:
        for cycle in nx.simple_cycles(G, length_bound=4):
            if len(cycle) >= 2:
                ... cycles.append((cycle, total_w))
    except Exception:
        pass
    v}
    An exception stops the loop and keeps what was appended so far. *)
Fixpoint collect_cycles (g : digraph) (cs : list (list string))
         (acc : list (list string * Z)) : list (list string * Z) :=
  match cs with
  | [] => acc
  | c :: cs' =>
    if (2 <=? length c)%nat then
      match cycle_weight g c with
      | Some w => collect_cycles g cs' (acc ++ [(c, w)])
      | None => acc
      end
    else collect_cycles g cs' acc
  end.

(** [cycles] after [cycles.sort(key=lambda x: x[1], reverse=True)]. *)
Definition found_cycles (g : digraph) : list (list string * Z) :=
  sort_desc snd (collect_cycles g (simple_cycles g 4) []).

(** The table shows [cycles[:20]]; the title shows [len(cycles)]. *)
Record CycleBundle := mkCycleBundle {
  cy_top : list (list string * Z);
  cy_found : nat
}.

(** The graph of [render_cycle_analysis], built after its own
    [if not edges: return]. *)
Definition cycle_graph (edges : list ProductionEdge) : option digraph :=
  match edges with
  | [] => None
  | _ =>
    Some (fold_left (fun g e => add_edge (catalyst e) (product e) (count e) g)
                    edges empty_graph)
  end.

Definition render_cycle_analysis (r : SimulationResult) : option CycleBundle :=
  match cycle_graph (productionEdges r) with
  | None => None
  | Some G =>
    let cycles := found_cycles G in
    Some (mkCycleBundle (firstn 20 cycles) (length cycles))
  end.

(** networkx 3 searches each strongly connected component from
    [next(iter(c))] of a Python [set] of nodes, so which rotation of a cycle
    [nx.simple_cycles] yields, and in which order the cycles come, follow the
    string-hash seed of the run.  [nx_cycle_listing g L cs]: [cs] is a
    listing some run can yield: the cycles of [simple_cycles g L], each in
    some rotation, in some order. *)
Definition rot1 (c : list string) : list string :=
  match c with [] => [] | x :: t => t ++ [x] end.

Definition rotation_of (c c' : list string) : Prop := exists k, c = Nat.iter k rot1 c'.

Definition nx_cycle_listing (g : digraph) (L : nat) (cs : list (list string)) : Prop :=
  exists cs0, Permutation cs cs0 /\ Forall2 rotation_of cs0 (simple_cycles g L).

(** [render_cycle_analysis] in a run whose [nx.simple_cycles(G, length_bound=4)]
    yields [cs]. *)
Definition render_cycle_analysis_run (r : SimulationResult) (cs : list (list string))
  : option CycleBundle :=
  match cycle_graph (productionEdges r) with
  | None => None
  | Some G =>
    let cycles := sort_desc snd (collect_cycles G cs []) in
    Some (mkCycleBundle (firstn 20 cycles) (length cycles))
  end.

(** The hash-dependent choices of one run of [process(name)]: the iteration
    order of [all_strands] and the cycle listing of [nx.simple_cycles]. *)
Definition nx_run (r : SimulationResult) (order : list string) (cs : list (list string))
  : Prop :=
  set_iteration (snapshots r) order /\
  (forall G, cycle_graph (productionEdges r) = Some G -> nx_cycle_listing G 4 cs).

(** [process(name)]: the three analyses of one result, in a run with
    iteration order [order] and cycle listing [cs]. *)
Definition pipeline (r : SimulationResult) (order : list string) (cs : list (list string))
  : option GraphBundle * option CompositionBundle * option CycleBundle :=
  (render_production_graph r, render_pool_composition r order, render_cycle_analysis_run r cs).

(** ** Further values drawn by the render functions *)

(** [weights = [G[u][v]['weight'] for u, v in G.edges]]: every pair of
    [G.edges] has its edge-data dict, so the lookups never fall back. *)
Definition edge_weights (g : digraph) : list Z :=
  map (fun '(u, v) => Dict.get_d v 0 (Dict.get_d u [] (succ g))) (graph_edges g).

(** [max_w = max(weights) if weights else 1] *)
Definition max_w (g : digraph) : Z :=
  match edge_weights g with
  | [] => 1
  | x :: xs => py_max x xs
  end.

(** [edge_widths = [0.5 + 3.0 * (w / max_w) for w in weights]], kept as the
    ratios [w / max_w]. *)
Definition edge_width_ratios (g : digraph) : list (Z * Z) :=
  map (fun w => (w, max_w g)) (edge_weights g).

(** {v
    top_n = min(25, len(G.nodes))
    top_nodes = sorted(G.nodes, key=lambda n: degrees.get(n, 0), reverse=True)[:top_n]
    v} *)
Definition top_nodes (g : digraph) : list string :=
  firstn (Nat.min 25 (length (nodes g)))
         (sort_desc (fun n => Dict.get_d n 0 (degrees g)) (nodes g)).

(** [n[:8] + '..' if len(n) > 10 else n]; strand identifiers are ASCII, so
    Python's code-point slicing is [String.substring] on characters. *)
Definition node_label (n : string) : string :=
  if (10 <? String.length n)%nat then String.append (String.substring 0 8 n) ".." else n.

(** [labels = {n: ... for n in top_nodes}] *)
Definition node_labels (g : digraph) : list (string * string) :=
  fold_left (fun d n => Dict.set n (node_label n) d) (top_nodes g) [].

(** [arrays = [strand_counts[s] for s in top_strands] + [other]], the
    layers of the stacked area chart. *)
Definition stack_arrays (b : CompositionBundle) : list (list Z) :=
  cb_series b ++ [cb_other b].

(** [labels_list = [s[:12] for s in top_strands] + ['other']] *)
Definition legend_labels (b : CompositionBundle) : list string :=
  map (fun s => String.substring 0 12 s) (cb_top b) ++ ["other"].

(** The separator [' → '] of the cycle column, as the UTF-8 bytes of the
    arrow between two spaces. *)
Definition ARROW : string :=
  String (Ascii.ascii_of_nat 32) (String (Ascii.ascii_of_nat 226)
    (String (Ascii.ascii_of_nat 134) (String (Ascii.ascii_of_nat 146)
      (String (Ascii.ascii_of_nat 32) EmptyString)))).

(** [' → '.join(c[:10] for c in cycle) + ' → ' + cycle[0][:10]] *)
Definition cycle_str (cycle : list string) : string :=
  String.append (String.concat ARROW (map (fun c => String.substring 0 10 c) cycle))
                (String.append ARROW (String.substring 0 10 (nth 0 cycle ""))).

(** {v
    top_cycles = cycles[:20]
    for cycle, weight in top_cycles:
        table_data.append([len(cycle), cycle_str, weight])
    v} *)
Definition cycle_table (g : digraph) : list (nat * string * Z) :=
  map (fun '(c, w) => (length c, cycle_str c, w)) (firstn 20 (found_cycles g)).

(** ** Concrete inputs used below *)

Definition ring_edges : list ProductionEdge :=
  [mkEdge "A" "B" 1; mkEdge "B" "C" 2; mkEdge "C" "A" 3].

Definition ring_result : SimulationResult := mkResult ring_edges [].

Definition comp_example : list Snapshot :=
  [mkSnap 0 [("X", 5)] 5 1; mkSnap 1 [("X", 3); ("Y", 2)] 5 2].

(** Two snapshots in which strands [X] and [Y] tie on their maximum. *)
Definition tie_snaps : list Snapshot :=
  [mkSnap 0 [("X", 1); ("Y", 1)] 2 2; mkSnap 1 [("X", 1); ("Y", 1)] 2 2].

Definition tie_result : SimulationResult := mkResult [] tie_snaps.

(** The complete digraph on five strands, with weights 1 to 3: 60 simple
    cycles of 2 to 4 nodes, with many equal total weights. *)
Definition k5_names : list string := ["A"; "B"; "C"; "D"; "E"].

Definition k5_edges : list ProductionEdge :=
  flat_map (fun '(i, u) =>
              flat_map (fun '(j, v) =>
                          if Nat.eqb i j then []
                          else [mkEdge u v (Z.of_nat ((i + 2 * j) mod 3) + 1)])
                       (combine (seq 0 5) k5_names))
           (combine (seq 0 5) k5_names).

Definition k5_result : SimulationResult := mkResult k5_edges [].

(** The ring together with the tied strands. *)
Definition tie_ring_result : SimulationResult := mkResult ring_edges tie_snaps.

(** ** Auxiliary definitions for the proofs *)

Definition add_prod (g : digraph) (e : ProductionEdge) : digraph :=
  add_edge (catalyst e) (product e) (count e) g.

Definition edge_pair (e : ProductionEdge) : string * string := (catalyst e, product e).

(** Well-formedness of a networkx [DiGraph] as [add_edge] leaves it:
    distinct nodes, [_pred] with the node keys of [_succ], distinct
    neighbours, and every edge recorded in [_pred] as well. *)
Definition wf (g : digraph) : Prop :=
  NoDup (nodes g) /\
  Dict.keys (pred g) = nodes g /\
  (forall u, NoDup (Dict.keys (Dict.get_d u [] (succ g)))) /\
  (forall a b, has_edge g a b = true -> In a (Dict.keys (Dict.get_d b [] (pred g)))).

Definition edge_eq_dec (x y : string * string) : {x = y} + {x <> y}.
Proof. decide equality; apply string_dec. Defined.

Definition sum_z (l : list Z) : Z := fold_right Z.add 0 l.

(** Default snapshot for [nth]. *)
Definition snap0 : Snapshot := mkSnap 0 [] 0 0.

(** Order of first appearance: each element the first time it is seen. *)
Definition first_occ (l : list string) : list string :=
  fold_left (fun acc x => if str_mem x acc then acc else acc ++ [x]) l [].

(** A snapshot whose [poolSize] is the total of its pool, with distinct
    keys and non-negative counts. *)
Definition consistent_snapshot (sn : Snapshot) : Prop :=
  NoDup (Dict.keys (pool sn)) /\
  Forall (fun kv => (0 <= snd kv)%Z) (pool sn) /\
  poolSize sn = sum_z (map snd (pool sn)).

(** Consecutive elements of a path are joined by edges. *)
Definition chain (g : digraph) (l : list string) : Prop :=
  forall i, (S i < length l)%nat -> has_edge g (nth i l "") (nth (S i) l "") = true.

(** A non-empty chain whose last element has an edge back to its first. *)
Definition closed_walk (g : digraph) (c : list string) : Prop :=
  (0 < length c)%nat /\ chain g c /\
  has_edge g (nth (length c - 1) c "") (nth 0 c "") = true.

(** * Proofs *)

(** ** Dict lemmas *)

Module DictFacts.
Import Dict.

Lemma get_set_eq {V} k (v : V) d : get k (set k v d) = Some v.
Proof.
  induction d as [|[k' v'] d IH]; simpl.
  - now rewrite String.eqb_refl.
  - destruct (String.eqb k k') eqn:E; simpl; rewrite ?String.eqb_refl, ?E; auto.
Qed.

Lemma get_set_neq {V} k k' (v : V) d : k <> k' -> get k (set k' v d) = get k d.
Proof.
  intros Hne. induction d as [|[k0 v0] d IH]; simpl.
  - apply String.eqb_neq in Hne. now rewrite Hne.
  - destruct (String.eqb k' k0) eqn:E; simpl.
    + apply String.eqb_eq in E; subst k0.
      apply String.eqb_neq in Hne. now rewrite Hne.
    + now rewrite IH.
Qed.

Lemma get_in_keys {V} k (d : list (string * V)) :
  In k (keys d) <-> exists v, get k d = Some v.
Proof.
  induction d as [|[k' v'] d IH]; simpl.
  - split; [easy | now intros [v Hv]].
  - destruct (String.eqb k k') eqn:E.
    + apply String.eqb_eq in E; subst. split; eauto.
    + apply String.eqb_neq in E. rewrite <- IH. split.
      * intros [H|H]; [congruence | exact H].
      * auto.
Qed.

Lemma get_none_keys {V} k (d : list (string * V)) :
  get k d = None <-> ~ In k (keys d).
Proof.
  rewrite get_in_keys. split.
  - intros H [v Hv]. congruence.
  - intros H. destruct (get k d) eqn:E; auto. exfalso; eauto.
Qed.

Lemma get_app_in {V} k (d e : list (string * V)) :
  In k (keys d) -> get k (d ++ e) = get k d.
Proof.
  induction d as [|[k' v'] d IH]; simpl; [easy|].
  intros [H|H].
  - subst. now rewrite String.eqb_refl.
  - destruct (String.eqb k k'); auto.
Qed.

Lemma get_app_notin {V} k (d e : list (string * V)) :
  ~ In k (keys d) -> get k (d ++ e) = get k e.
Proof.
  induction d as [|[k' v'] d IH]; simpl; [easy|].
  intros H. destruct (String.eqb k k') eqn:E.
  - apply String.eqb_eq in E. exfalso; auto.
  - auto.
Qed.

Lemma keys_set {V} k (v : V) d :
  keys (set k v d) = if mem k d then keys d else (keys d ++ [k])%list.
Proof.
  unfold mem. induction d as [|[k' v'] d IH]; simpl; [easy|].
  destruct (String.eqb k k') eqn:E; simpl.
  - apply String.eqb_eq in E. now subst.
  - now rewrite IH; destruct (get k d).
Qed.

Lemma mem_keys {V} k (d : list (string * V)) : mem k d = true <-> In k (keys d).
Proof.
  unfold mem. rewrite get_in_keys. destruct (get k d); split; eauto.
  - discriminate.
  - intros [v Hv]; discriminate.
Qed.

Lemma in_keys_set {V} x k (v : V) d : In x (keys (set k v d)) <-> x = k \/ In x (keys d).
Proof.
  rewrite keys_set. destruct (mem k d) eqn:E.
  - apply mem_keys in E. split; [auto|]. intros [->|H]; auto.
  - rewrite in_app_iff; simpl. intuition.
Qed.

Lemma nodup_keys_set {V} k (v : V) d : NoDup (keys d) -> NoDup (keys (set k v d)).
Proof.
  intros H. rewrite keys_set. destruct (mem k d) eqn:E; auto.
  apply NoDup_app; auto using NoDup_cons, NoDup_nil.
  intros a Ha [<-|[]]. apply (proj2 (mem_keys k d)) in Ha. congruence.
Qed.

End DictFacts.

(** ** networkx graph lemmas *)

Module GraphFacts.
Import DictFacts.

Lemma edge_weight_add_node x g a b : edge_weight (add_node x g) a b = edge_weight g a b.
Proof.
  unfold add_node. destruct (Dict.mem x (succ g)) eqn:E; [reflexivity|].
  unfold edge_weight; simpl.
  destruct (in_dec string_dec a (Dict.keys (succ g))) as [Hin|Hin].
  - now rewrite get_app_in.
  - rewrite get_app_notin by exact Hin.
    apply get_none_keys in Hin. rewrite Hin. simpl.
    destruct (String.eqb a x); reflexivity.
Qed.

Lemma edge_weight_add_edge u v w g a b :
  edge_weight (add_edge u v w g) a b =
  if String.eqb a u && String.eqb b v then Some w else edge_weight g a b.
Proof.
  rewrite <- (edge_weight_add_node u g), <- (edge_weight_add_node v (add_node u g)).
  unfold add_edge. set (g1 := add_node v (add_node u g)).
  unfold edge_weight at 1; simpl.
  destruct (String.eqb_spec a u) as [->|Hau]; simpl.
  - rewrite get_set_eq.
    destruct (String.eqb_spec b v) as [->|Hbv].
    + now rewrite get_set_eq.
    + rewrite get_set_neq by exact Hbv. unfold edge_weight, Dict.get_d.
      destruct (Dict.get u (succ g1)); reflexivity.
  - rewrite get_set_neq by exact Hau. reflexivity.
Qed.

Lemma has_edge_add_edge u v w g a b :
  has_edge (add_edge u v w g) a b = (String.eqb a u && String.eqb b v) || has_edge g a b.
Proof.
  unfold has_edge. rewrite edge_weight_add_edge.
  destruct (String.eqb a u && String.eqb b v); reflexivity.
Qed.

Lemma build_graph_fold es : build_graph es = fold_left add_prod es empty_graph.
Proof. reflexivity. Qed.

Lemma has_edge_fold es g a b :
  has_edge g a b = true -> has_edge (fold_left add_prod es g) a b = true.
Proof.
  revert g. induction es as [|e es IH]; simpl; intros g H; [exact H|].
  apply IH. unfold add_prod. rewrite has_edge_add_edge, H. apply orb_true_r.
Qed.

Lemma has_edge_build e es :
  In e es -> has_edge (build_graph es) (catalyst e) (product e) = true.
Proof.
  intros Hin. apply in_split in Hin as (es1 & es2 & ->).
  rewrite build_graph_fold, fold_left_app. simpl. apply has_edge_fold.
  unfold add_prod. rewrite has_edge_add_edge, !String.eqb_refl. reflexivity.
Qed.

Lemma edge_weight_fold_notin es g a b :
  ~ In (a, b) (map edge_pair es) ->
  edge_weight (fold_left add_prod es g) a b = edge_weight g a b.
Proof.
  revert g. induction es as [|e es IH]; simpl; intros g Hn; [reflexivity|].
  rewrite IH by tauto. unfold add_prod. rewrite edge_weight_add_edge.
  destruct (String.eqb_spec a (catalyst e)) as [->|]; simpl; [|reflexivity].
  destruct (String.eqb_spec b (product e)) as [->|]; [|reflexivity].
  exfalso. apply Hn. left. reflexivity.
Qed.

Lemma in_graph_edges g a b : In (a, b) (graph_edges g) <-> has_edge g a b = true.
Proof.
  unfold graph_edges, has_edge, edge_weight, nodes. rewrite in_flat_map.
  split.
  - intros (u & Hu & Hab). apply in_map_iff in Hab as (v & Heq & Hv).
    injection Heq as <- <-.
    apply get_in_keys in Hu as (nbrs & Hn). unfold Dict.get_d in Hv. rewrite Hn in *.
    apply get_in_keys in Hv as (w & Hw). now rewrite Hw.
  - destruct (Dict.get a (succ g)) as [nbrs|] eqn:Hn; [|discriminate].
    destruct (Dict.get b nbrs) eqn:Hb; [|discriminate]. intros _.
    exists a. split.
    + apply get_in_keys. eauto.
    + apply in_map_iff. exists b. split; [reflexivity|].
      unfold Dict.get_d. rewrite Hn. apply get_in_keys. eauto.
Qed.

Lemma get_d_set_eq {V} k (dflt v : V) d : Dict.get_d k dflt (Dict.set k v d) = v.
Proof. unfold Dict.get_d. now rewrite get_set_eq. Qed.

Lemma get_d_set_neq {V} k k' (dflt v : V) d :
  k <> k' -> Dict.get_d k dflt (Dict.set k' v d) = Dict.get_d k dflt d.
Proof. intros H. unfold Dict.get_d. now rewrite get_set_neq. Qed.

Lemma in_get_d_keys {V} a b (d : list (string * list (string * V))) :
  In a (Dict.keys (Dict.get_d b [] d)) -> In b (Dict.keys d).
Proof.
  unfold Dict.get_d. destruct (Dict.get b d) eqn:E; [|easy].
  intros _. apply get_in_keys. eauto.
Qed.

Lemma get_d_app_in {V} k (dflt : V) d e :
  In k (Dict.keys d) -> Dict.get_d k dflt (d ++ e) = Dict.get_d k dflt d.
Proof. intros H. unfold Dict.get_d. now rewrite get_app_in. Qed.

Lemma has_edge_add_node x g a b : has_edge (add_node x g) a b = has_edge g a b.
Proof. unfold has_edge. now rewrite edge_weight_add_node. Qed.

Lemma nodes_add_node x g y : In y (nodes (add_node x g)) <-> y = x \/ In y (nodes g).
Proof.
  unfold add_node, nodes. destruct (Dict.mem x (succ g)) eqn:E; simpl.
  - apply mem_keys in E. split; [auto|]. intros [->|H]; auto.
  - unfold Dict.keys. rewrite map_app, in_app_iff. simpl. intuition.
Qed.

Lemma wf_empty : wf empty_graph.
Proof.
  split; [constructor|]. split; [reflexivity|].
  split; [intros u; constructor|]. intros a b H. discriminate.
Qed.

Lemma wf_add_node x g : wf g -> wf (add_node x g).
Proof.
  intros (Hnd & Hpk & Hsn & Hpe).
  unfold add_node. destruct (Dict.mem x (succ g)) eqn:E; [repeat split; auto|].
  assert (Hx : ~ In x (nodes g)) by (intros H; apply mem_keys in H; congruence).
  unfold wf, nodes in *; simpl. unfold Dict.keys in *. rewrite !map_app. simpl.
  repeat split.
  - apply NoDup_app; auto using NoDup_cons, NoDup_nil.
    intros a Ha [<-|[]]. contradiction.
  - now rewrite Hpk.
  - intros u. destruct (in_dec string_dec u (map fst (succ g))) as [Hu|Hu].
    + rewrite get_d_app_in by exact Hu. apply Hsn.
    + unfold Dict.get_d. rewrite get_app_notin by exact Hu. simpl.
      destruct (String.eqb u x); constructor.
  - intros a b Hab.
    assert (Hab' : has_edge g a b = true)
      by (rewrite <- (has_edge_add_node x g); unfold add_node; rewrite E; exact Hab).
    pose proof (Hpe a b Hab') as H. rewrite get_d_app_in; auto.
    eapply in_get_d_keys; exact H.
Qed.

Lemma wf_add_edge u v w g : wf g -> wf (add_edge u v w g).
Proof.
  intros Hwf.
  pose proof (wf_add_node v _ (wf_add_node u g Hwf)) as Hwf1.
  assert (Hu : In u (nodes (add_node v (add_node u g)))).
  { apply nodes_add_node. right. apply nodes_add_node. now left. }
  assert (Hv : In v (nodes (add_node v (add_node u g)))).
  { apply nodes_add_node. now left. }
  assert (Hhe : forall a b, has_edge (add_edge u v w g) a b = true ->
                 (a = u /\ b = v) \/ has_edge (add_node v (add_node u g)) a b = true).
  { intros a b H. rewrite has_edge_add_edge in H.
    rewrite has_edge_add_node, has_edge_add_node.
    apply orb_true_iff in H as [H|H]; [left|right; exact H].
    apply andb_true_iff in H as [H1 H2].
    apply String.eqb_eq in H1, H2. auto. }
  unfold add_edge in *. set (g1 := add_node v (add_node u g)) in *.
  destruct Hwf1 as (Hnd & Hpk & Hsn & Hpe).
  assert (Hku : Dict.mem u (succ g1) = true) by now apply mem_keys.
  assert (Hkv : Dict.mem v (pred g1) = true) by (apply mem_keys; now rewrite Hpk).
  unfold wf, nodes in *; simpl in *.
  repeat split.
  - now rewrite keys_set, Hku.
  - now rewrite !keys_set, Hku, Hkv.
  - intros x. destruct (String.eqb_spec x u) as [->|Hxu].
    + rewrite get_d_set_eq. apply nodup_keys_set, Hsn.
    + rewrite get_d_set_neq by exact Hxu. apply Hsn.
  - intros a b Hab. apply Hhe in Hab as [[-> ->]|Hab].
    + rewrite get_d_set_eq. apply in_keys_set. now left.
    + destruct (String.eqb_spec b v) as [->|Hbv].
      * rewrite get_d_set_eq. apply in_keys_set. right. apply Hpe, Hab.
      * rewrite get_d_set_neq by exact Hbv. apply Hpe, Hab.
Qed.

Lemma wf_fold es g : wf g -> wf (fold_left add_prod es g).
Proof.
  revert g. induction es as [|e es IH]; simpl; intros g H; auto.
  apply IH. apply wf_add_edge, H.
Qed.

Lemma wf_build es : wf (build_graph es).
Proof. rewrite build_graph_fold. apply wf_fold, wf_empty. Qed.

Lemma nodup_graph_edges g : wf g -> NoDup (graph_edges g).
Proof.
  intros (Hnd & _ & Hsn & _). unfold graph_edges.
  induction Hnd as [|u ns Hu Hns IH]; simpl; [constructor|].
  apply NoDup_app; auto.
  - apply Finite.Injective_map_NoDup; [|apply Hsn].
    intros x y H; now injection H.
  - intros [a b] H1 H2. apply in_map_iff in H1 as (x & Hx & _). injection Hx as -> _.
    apply in_flat_map in H2 as (u' & Hu' & H2). apply in_map_iff in H2 as (y & Hy & _).
    injection Hy as -> _. contradiction.
Qed.

Lemma has_edge_inv g a b :
  has_edge g a b = true ->
  In a (nodes g) /\ In b (Dict.keys (Dict.get_d a [] (succ g))).
Proof.
  unfold has_edge, edge_weight, nodes, Dict.get_d.
  destruct (Dict.get a (succ g)) as [nbrs|] eqn:Hn; [|discriminate].
  destruct (Dict.get b nbrs) eqn:Hb; [|discriminate]. intros _.
  split; apply get_in_keys; eauto.
Qed.

Lemma fold_max_ge_acc l acc : acc <= fold_left Z.max l acc.
Proof.
  revert acc. induction l as [|x l IH]; simpl; intros acc; [lia|].
  specialize (IH (Z.max acc x)). lia.
Qed.

Lemma fold_max_ge_in l acc x : In x l -> x <= fold_left Z.max l acc.
Proof.
  revert acc. induction l as [|y l IH]; simpl; intros acc H; [easy|].
  destruct H as [->|H]; auto.
  pose proof (fold_max_ge_acc l (Z.max acc x)). lia.
Qed.

Lemma max_or_1_ge (d : list (string * Z)) n x : In (n, x) d -> x <= max_or_1 d.
Proof.
  unfold max_or_1, py_max. intros H.
  apply (in_map snd) in H. simpl in H.
  destruct (map snd d) as [|y ys]; [easy|].
  destruct H as [->|H]; [apply fold_max_ge_acc | now apply fold_max_ge_in].
Qed.

Lemma length_pos_in {T} (x : T) l : In x l -> (0 < length l)%nat.
Proof. destruct l; simpl; [easy | lia]. Qed.

End GraphFacts.

(** ** Stable descending sort *)

Module SortFacts.

Section WithKey.
Context {A : Type} (key : A -> Z).

Let R (a b : A) : Prop := (key b <= key a)%Z.

Lemma insert_desc_perm x l : Permutation (insert_desc key x l) (x :: l).
Proof.
  induction l as [|y l IH]; simpl; [reflexivity|].
  destruct (Z.ltb (key y) (key x)); [reflexivity|].
  rewrite IH. apply perm_swap.
Qed.

Lemma sort_desc_fold_perm l acc :
  Permutation (fold_left (fun acc x => insert_desc key x acc) l acc) (l ++ acc).
Proof.
  revert acc. induction l as [|x l IH]; simpl; intros acc; [reflexivity|].
  rewrite IH, insert_desc_perm. symmetry. apply Permutation_middle.
Qed.

Lemma sort_desc_perm l : Permutation (sort_desc key l) l.
Proof. unfold sort_desc. rewrite sort_desc_fold_perm. now rewrite app_nil_r. Qed.

Lemma insert_desc_sorted x l :
  StronglySorted R l -> StronglySorted R (insert_desc key x l).
Proof.
  induction l as [|y l IH]; simpl; intros H.
  - repeat constructor.
  - apply StronglySorted_inv in H as [Hl Hy].
    destruct (Z.ltb_spec (key y) (key x)).
    + constructor; [constructor; auto|].
      constructor; [unfold R; lia|].
      eapply Forall_impl; [|exact Hy]. unfold R; intros z Hz; lia.
    + constructor; [now apply IH|].
      apply Forall_forall. intros z Hz.
      apply (Permutation_in _ (insert_desc_perm x l)) in Hz as [<-|Hz].
      * unfold R; lia.
      * eapply Forall_forall in Hy; eauto.
Qed.

Lemma sort_desc_sorted l : StronglySorted R (sort_desc key l).
Proof.
  unfold sort_desc.
  assert (H : StronglySorted R []) by constructor.
  revert H. generalize (@nil A). induction l as [|x l IH]; simpl; intros acc H; auto.
  apply IH, insert_desc_sorted, H.
Qed.

Lemma filter_key_lt k l :
  (forall z, In z l -> (key z < k)%Z) -> filter (fun z => Z.eqb (key z) k) l = [].
Proof.
  induction l as [|y l IH]; simpl; intros H; [reflexivity|].
  destruct (Z.eqb_spec (key y) k) as [E|_].
  - specialize (H y (or_introl eq_refl)). lia.
  - apply IH. auto.
Qed.

Lemma insert_desc_filter k x l :
  StronglySorted R l ->
  filter (fun z => Z.eqb (key z) k) (insert_desc key x l) =
  filter (fun z => Z.eqb (key z) k) l ++ (if Z.eqb (key x) k then [x] else []).
Proof.
  induction l as [|y l IH]; simpl; intros H; [reflexivity|].
  apply StronglySorted_inv in H as [Hl Hy].
  destruct (Z.ltb_spec (key y) (key x)) as [Hlt|Hge]; simpl.
  - destruct (Z.eqb_spec (key x) k) as [<-|Hxk].
    + rewrite (proj2 (Z.eqb_neq (key y) (key x))) by lia.
      rewrite filter_key_lt; [reflexivity|].
      intros z Hz. eapply Forall_forall in Hy; eauto. unfold R in Hy. lia.
    + now rewrite app_nil_r.
  - rewrite IH by exact Hl. destruct (Z.eqb (key y) k); reflexivity.
Qed.

Lemma sort_desc_filter k l :
  filter (fun z => Z.eqb (key z) k) (sort_desc key l) = filter (fun z => Z.eqb (key z) k) l.
Proof.
  unfold sort_desc.
  assert (Hgen : forall acc, StronglySorted R acc ->
            filter (fun z => Z.eqb (key z) k)
              (fold_left (fun acc x => insert_desc key x acc) l acc) =
            filter (fun z => Z.eqb (key z) k) acc ++ filter (fun z => Z.eqb (key z) k) l).
  { induction l as [|x l IH]; simpl; intros acc Hacc.
    - now rewrite app_nil_r.
    - rewrite IH by now apply insert_desc_sorted.
      rewrite insert_desc_filter by exact Hacc. rewrite <- app_assoc.
      destruct (Z.eqb (key x) k); reflexivity. }
  rewrite Hgen by constructor. reflexivity.
Qed.

End WithKey.

Lemma strongly_sorted_app {T} (R : T -> T -> Prop) l1 l2 :
  StronglySorted R (l1 ++ l2) ->
  StronglySorted R l1 /\ (forall x y, In x l1 -> In y l2 -> R x y).
Proof.
  induction l1 as [|a l1 IH]; simpl; intros H.
  - split; [constructor | easy].
  - apply StronglySorted_inv in H as [H Ha]. apply IH in H as [H1 H2].
    split.
    + constructor; auto. apply Forall_forall. intros z Hz.
      eapply Forall_forall in Ha; eauto. apply in_or_app; auto.
    + intros x y [<-|Hx] Hy; auto.
      eapply Forall_forall in Ha; eauto. apply in_or_app; auto.
Qed.

Lemma firstn_sorted {T} (R : T -> T -> Prop) n l :
  StronglySorted R l ->
  StronglySorted R (firstn n l) /\
  (forall x y, In x (firstn n l) -> In y (skipn n l) -> R x y).
Proof. rewrite <- (firstn_skipn n l) at 1. apply strongly_sorted_app. Qed.

(** Two lists sorted descending with the same elements are equal. *)
Lemma sorted_desc_perm_eq (l1 l2 : list Z) :
  StronglySorted (fun a b => (b <= a)%Z) l1 ->
  StronglySorted (fun a b => (b <= a)%Z) l2 ->
  Permutation l1 l2 -> l1 = l2.
Proof.
  revert l2. induction l1 as [|a l1 IH]; intros l2 H1 H2 Hp.
  - symmetry. now apply Permutation_nil.
  - destruct l2 as [|b l2]; [apply Permutation_sym, Permutation_nil in Hp; discriminate|].
    apply StronglySorted_inv in H1 as [H1 Ha].
    apply StronglySorted_inv in H2 as [H2 Hb].
    assert (Hab : a = b).
    { assert (Ia : In a (b :: l2)) by (eapply Permutation_in; [exact Hp|now left]).
      assert (Ib : In b (a :: l1))
        by (eapply Permutation_in; [apply Permutation_sym; exact Hp|now left]).
      destruct Ia as [->|Ia]; [reflexivity|].
      destruct Ib as [->|Ib]; [reflexivity|].
      eapply Forall_forall in Ha; [|exact Ib].
      eapply Forall_forall in Hb; [|exact Ia]. lia. }
    subst b. f_equal. apply IH; auto. eapply Permutation_cons_inv; exact Hp.
Qed.

Lemma sorted_map_key {T} (key : T -> Z) l :
  StronglySorted (fun a b => (key b <= key a)%Z) l ->
  StronglySorted (fun a b => (b <= a)%Z) (map key l).
Proof.
  induction 1 as [|a l _ IH Ha]; simpl; constructor; auto.
  apply Forall_map. exact Ha.
Qed.

End SortFacts.

(** ** Composition lemmas *)

Module CompositionFacts.
Import DictFacts.

Lemma fold_set_get (F : string -> list Z) top d0 s :
  Dict.get s (fold_left (fun d s => Dict.set s (F s) d) top d0) =
  if in_dec string_dec s top then Some (F s) else Dict.get s d0.
Proof.
  revert d0. induction top as [|t top IH]; simpl; intros d0; [reflexivity|].
  rewrite IH.
  destruct (in_dec string_dec s top) as [H|H];
    destruct (string_dec t s) as [->|Hts]; auto.
  - now rewrite get_set_eq.
  - rewrite get_set_neq by congruence. reflexivity.
Qed.

Lemma fold_left_add l a : fold_left Z.add l a = (a + sum_z l)%Z.
Proof.
  revert a. induction l as [|x l IH]; simpl; intros a; [lia|].
  rewrite IH. lia.
Qed.

Lemma nth_map_default {A B} (f : A -> B) l d d' i :
  (i < length l)%nat -> nth i (map f l) d' = f (nth i l d).
Proof.
  intros Hi. rewrite nth_indep with (d' := f d) by (rewrite length_map; exact Hi).
  apply map_nth.
Qed.

Lemma other_series_nth snaps top i :
  (i < length snaps)%nat ->
  nth i (other_series snaps top (strand_counts snaps top)) 0 =
  (poolSize (nth i snaps snap0) - sum_z (map (pool_get (nth i snaps snap0)) top))%Z.
Proof.
  intros Hi. unfold other_series.
  set (f := fun '(i0, snap) =>
              (poolSize snap
               - fold_left Z.add
                   (map (fun s => nth i0 (Dict.get_d s [] (strand_counts snaps top)) 0) top)
                   0)%Z).
  assert (Hlen : length (combine (seq 0 (length snaps)) snaps) = length snaps)
    by (rewrite length_combine, length_seq; lia).
  rewrite (nth_indep _ 0 (f (0%nat, snap0))) by (rewrite length_map; lia).
  rewrite map_nth, combine_nth by (now rewrite length_seq).
  rewrite seq_nth by exact Hi. simpl. unfold f.
  rewrite fold_left_add, Z.add_0_l. f_equal. f_equal. apply map_ext_in.
  intros s Hs. unfold Dict.get_d, strand_counts.
  rewrite fold_set_get. destruct (in_dec string_dec s top) as [_|]; [|contradiction].
  apply (nth_map_default (fun sn => pool_get sn s)). exact Hi.
Qed.

Lemma set_iteration_perm snaps o1 o2 :
  set_iteration snaps o1 -> set_iteration snaps o2 -> Permutation o1 o2.
Proof.
  intros [N1 H1] [N2 H2]. apply NoDup_Permutation; auto.
  intros x. rewrite H1, H2. reflexivity.
Qed.

Lemma set_iteration_tie_XY : set_iteration tie_snaps ["X"; "Y"].
Proof.
  split.
  - constructor; [simpl; intros [H|[]]; discriminate|].
    constructor; [simpl; tauto | constructor].
  - intros s. split.
    + intros Hs. exists (mkSnap 0 [("X", 1); ("Y", 1)] 2 2). split; [now left|].
      simpl. destruct Hs as [<-|[<-|[]]]; auto.
    + intros (sn & Hsn & Hs). unfold tie_snaps in Hsn. simpl in Hsn.
      destruct Hsn as [<-|[<-|[]]]; unfold Dict.keys in Hs; simpl in Hs; simpl; tauto.
Qed.

Lemma set_iteration_tie_YX : set_iteration tie_snaps ["Y"; "X"].
Proof.
  destruct set_iteration_tie_XY as [_ H]. split.
  - constructor; [simpl; intros [H1|[]]; discriminate|].
    constructor; [simpl; tauto | constructor].
  - intros s. rewrite <- H. simpl. tauto.
Qed.

End CompositionFacts.

(** ** Cycle search lemmas *)

Module CycleFacts.

Lemma str_mem_false x l : str_mem x l = false -> ~ In x l.
Proof.
  unfold str_mem. intros H Hin.
  assert (Ht : existsb (String.eqb x) l = true).
  { apply existsb_exists. exists x. split; [exact Hin | apply String.eqb_refl]. }
  congruence.
Qed.

Lemma search_simple g allowed s k :
  forall path cur c,
  In c (search g allowed s k path cur) -> NoDup path ->
  NoDup c /\ (length c < length path + k)%nat.
Proof.
  induction k as [|k IH]; simpl; intros path cur c Hc Hnd; [contradiction|].
  apply in_app_or in Hc as [Hc|Hc].
  - destruct (has_edge g cur s); [|contradiction].
    destruct Hc as [<-|[]]. split; [exact Hnd | lia].
  - apply in_flat_map in Hc as (v & _ & Hc).
    destruct (str_mem v allowed && negb (str_mem v path)) eqn:E; [|contradiction].
    apply andb_true_iff in E as [_ E]. apply negb_true_iff, str_mem_false in E.
    assert (Hnd' : NoDup (path ++ [v])).
    { apply NoDup_app; auto using NoDup_cons, NoDup_nil.
      intros a Ha [<-|[]]. contradiction. }
    destruct (IH _ _ _ Hc Hnd') as [H1 H2].
    rewrite length_app in H2. simpl in H2. split; [exact H1 | lia].
Qed.

Lemma cycles_from_simple g L ns c :
  In c (cycles_from g L ns) -> NoDup c /\ (length c <= L)%nat.
Proof.
  induction ns as [|s ns IH]; simpl; intros Hc; [contradiction|].
  apply in_app_or in Hc as [Hc|Hc]; auto.
  apply search_simple in Hc as [H1 H2]; [|repeat constructor; easy].
  simpl in H2. split; [exact H1 | lia].
Qed.

Lemma collect_cycles_inv g cs acc c w :
  In (c, w) (collect_cycles g cs acc) ->
  In (c, w) acc \/ (In c cs /\ (2 <= length c)%nat /\ cycle_weight g c = Some w).
Proof.
  revert acc. induction cs as [|c' cs IH]; intros acc H; [now left|].
  cbn [collect_cycles] in H.
  destruct (2 <=? length c')%nat eqn:Hl.
  - apply Nat.leb_le in Hl. destruct (cycle_weight g c') as [w'|] eqn:Ew; [|now left].
    apply IH in H as [H|H].
    + apply in_app_or in H as [H|[H|[]]]; [now left|].
      injection H as <- <-. right. split; [now left | auto].
    + right. destruct H as (H1 & H2 & H3). simpl. auto.
  - apply IH in H as [H|(H1 & H2 & H3)]; [now left|]. right. simpl. auto.
Qed.

Section Weight.
Variables (g : digraph) (c : list string).

Let step (acc : option Z) (i : nat) : option Z :=
  match acc with
  | None => None
  | Some t =>
    match edge_weight g (nth i c "") (nth ((i + 1) mod length c)%nat c "") with
    | Some w => Some (t + w)%Z
    | None => None
    end
  end.

Lemma fold_step_none l : fold_left step l None = None.
Proof. induction l as [|i l IH]; simpl; auto. Qed.

Lemma fold_step_some l t w :
  fold_left step l (Some t) = Some w ->
  exists ws,
    Forall2 (fun i wi => edge_weight g (nth i c "") (nth ((i + 1) mod length c)%nat c "")
                         = Some wi) l ws /\
    w = (t + sum_z ws)%Z.
Proof.
  revert t. induction l as [|i l IH]; simpl; intros t H.
  - injection H as <-. exists []. split; [constructor | simpl; lia].
  - destruct (edge_weight g (nth i c "") (nth ((i + 1) mod length c)%nat c "")) as [wi|] eqn:E.
    + apply IH in H as (ws & Hf & ->). exists (wi :: ws).
      split; [constructor; auto | simpl; lia].
    + rewrite fold_step_none in H. discriminate.
Qed.

Lemma cycle_weight_spec w :
  cycle_weight g c = Some w ->
  exists ws,
    Forall2 (fun i wi => edge_weight g (nth i c "") (nth ((i + 1) mod length c)%nat c "")
                         = Some wi) (seq 0 (length c)) ws /\
    w = sum_z ws.
Proof.
  intros H. apply fold_step_some in H as (ws & Hf & ->). eauto.
Qed.

End Weight.

End CycleFacts.

(** * Claims *)

Import GraphFacts.

(** ** C2: the Graph Builder keeps one edge per ordered pair, weighted by
    the count of the pair's last occurrence (overwrite, not sum); on
    [[(A,B,3); (A,B,7)]] it has the single edge [A -> B] of weight 7. *)
Theorem build_graph_last_write_wins :
  (forall es1 a b w es2,
     ~ In (a, b) (map (fun e => (catalyst e, product e)) es2) ->
     let G := build_graph (es1 ++ mkEdge a b w :: es2) in
     edge_weight G a b = Some w /\ In (a, b) (graph_edges G) /\ NoDup (graph_edges G)) /\
  graph_edges (build_graph [mkEdge "A" "B" 3; mkEdge "A" "B" 7]) = [("A", "B")] /\
  edge_weight (build_graph [mkEdge "A" "B" 3; mkEdge "A" "B" 7]) "A" "B" = Some 7.
Proof.
  split; [|split; reflexivity].
  intros es1 a b w es2 Hn G.
  assert (Hw : edge_weight G a b = Some w).
  { unfold G. rewrite build_graph_fold, fold_left_app. simpl.
    rewrite edge_weight_fold_notin by exact Hn.
    unfold add_prod; simpl. rewrite edge_weight_add_edge, !String.eqb_refl.
    reflexivity. }
  split; [exact Hw|]. split.
  - apply in_graph_edges. unfold has_edge. now rewrite Hw.
  - apply nodup_graph_edges, wf_build.
Qed.

Lemma build_graph_last_write_wins_witness :
  ~ In ("A", "B") (map (fun e => (catalyst e, product e)) [mkEdge "B" "A" 1]) /\
  edge_weight (build_graph ([mkEdge "A" "B" 3] ++ mkEdge "A" "B" 7 :: [mkEdge "B" "A" 1]))
    "A" "B" = Some 7.
Proof.
  assert (H : ~ In ("A", "B") (map (fun e => (catalyst e, product e)) [mkEdge "B" "A" 1]))
    by (simpl; intros [H|[]]; discriminate).
  split; [exact H|].
  exact (proj1 (proj1 build_graph_last_write_wins _ _ _ _ _ H)).
Defined.

(** ** C3 (as stated: each mutual pair once, no self-loop pair) fails:
    [mutual_edges] lists directed edges, so [{A -> B, B -> A}] gives
    [(A,B)] and [(B,A)], and a self-loop [A -> A] gives [(A,A)]. *)
Lemma mutual_edges_pair_twice_cex :
  mutual_edges (build_graph [mkEdge "A" "B" 1; mkEdge "B" "A" 1]) = [("A", "B"); ("B", "A")] /\
  mutual_edges (build_graph [mkEdge "A" "A" 1]) = [("A", "A")].
Proof. split; vm_compute; reflexivity. Qed.

(** ** C3 (amended): for distinct [u] and [v], the directed edge [(u, v)] is
    in the mutual-edge list exactly once when both [u -> v] and [v -> u]
    exist and not at all otherwise; so a mutual pair [{u, v}] is listed once
    per direction, twice in all. *)
Theorem mutual_edges_once_per_direction :
  forall es u v, u <> v ->
  let G := build_graph es in
  count_occ edge_eq_dec (mutual_edges G) (u, v) =
    (if has_edge G u v && has_edge G v u then 1 else 0)%nat.
Proof.
  intros es u v _ G.
  assert (Hnd : NoDup (mutual_edges G))
    by (apply NoDup_filter, nodup_graph_edges, wf_build).
  assert (Hin : In (u, v) (mutual_edges G) <-> has_edge G u v && has_edge G v u = true).
  { unfold mutual_edges. rewrite filter_In, in_graph_edges, andb_true_iff. tauto. }
  destruct (has_edge G u v && has_edge G v u) eqn:E.
  - apply (proj1 (NoDup_count_occ' edge_eq_dec _) Hnd). now apply Hin.
  - apply count_occ_not_In. rewrite Hin. discriminate.
Qed.

Lemma mutual_edges_once_per_direction_witness :
  ("A" <> "B") /\
  count_occ edge_eq_dec
    (mutual_edges (build_graph [mkEdge "A" "B" 1; mkEdge "B" "A" 1])) ("A", "B") = 1%nat.
Proof.
  assert (H : "A" <> "B") by discriminate.
  split; [exact H|].
  rewrite (mutual_edges_once_per_direction _ _ _ H). vm_compute. reflexivity.
Defined.

(** ** C9: the normalising maxima [max_deg] and [max_in] are never zero:
    each is 1 on an empty degree map, and at least 1 on the graph of a
    non-empty edge list. *)
Theorem degree_normalisers_positive :
  forall es, let G := build_graph es in
  (degrees G = [] -> max_deg G = 1) /\
  (in_degrees G = [] -> max_in G = 1) /\
  (es <> [] -> (1 <= max_deg G)%Z /\ (1 <= max_in G)%Z) /\
  (0 < max_deg G)%Z /\ (0 < max_in G)%Z.
Proof.
  intros es G.
  assert (Hd : degrees G = [] -> max_deg G = 1)
    by (unfold max_deg; intros ->; reflexivity).
  assert (Hi : in_degrees G = [] -> max_in G = 1)
    by (unfold max_in; intros ->; reflexivity).
  assert (Hne : es <> [] -> (1 <= max_deg G)%Z /\ (1 <= max_in G)%Z).
  { destruct es as [|e es']; [easy|]. intros _.
    pose proof (has_edge_build e (e :: es') (or_introl eq_refl)) as He.
    fold G in He.
    destruct (wf_build (e :: es')) as (_ & Hpk & _ & Hpe). fold G in Hpk, Hpe.
    pose proof (Hpe _ _ He) as Hp.
    apply has_edge_inv in He as [Hc Hs].
    split.
    - eapply Z.le_trans; [|apply (max_or_1_ge _ (catalyst e))].
      2: { unfold degrees. apply in_map_iff. eexists; split; [reflexivity|exact Hc]. }
      apply length_pos_in in Hs. unfold Dict.keys in Hs. rewrite length_map in Hs. lia.
    - eapply Z.le_trans; [|apply (max_or_1_ge _ (product e))].
      2: { unfold in_degrees. apply in_map_iff. eexists; split; [reflexivity|].
           rewrite <- Hpk. eapply in_get_d_keys. exact Hp. }
      apply length_pos_in in Hp. unfold Dict.keys in Hp. rewrite length_map in Hp. lia. }
  split; [exact Hd|]. split; [exact Hi|]. split; [exact Hne|].
  destruct es as [|e es'].
  - split; [rewrite Hd|rewrite Hi]; reflexivity.
  - destruct Hne as [H1 H2]; [easy|]. lia.
Qed.

Lemma degree_normalisers_positive_witness :
  [mkEdge "A" "B" 1] <> [] /\ (1 <= max_deg (build_graph [mkEdge "A" "B" 1]))%Z.
Proof.
  assert (H : [mkEdge "A" "B" 1] <> []) by discriminate.
  split; [exact H|].
  exact (proj1 (proj1 (proj2 (proj2 (degree_normalisers_positive [mkEdge "A" "B" 1]))) H)).
Defined.

(** ** C10: [render_production_graph] and [render_cycle_analysis] build the
    same graph from the same edge list (and both build none when the list is
    empty). *)
Theorem production_and_cycle_graphs_agree :
  forall es, production_graph es = cycle_graph es.
Proof.
  intros [|e es']; [reflexivity|].
  unfold production_graph, cycle_graph.
  change (fold_left (fun g e => add_edge (catalyst e) (product e) (count e) g)
                    (e :: es') empty_graph) with (build_graph (e :: es')).
  pose proof (has_edge_build e (e :: es') (or_introl eq_refl)) as He.
  apply has_edge_inv in He as [Hc _].
  destruct (nodes (build_graph (e :: es'))); [easy | reflexivity].
Qed.

Import SortFacts.

(** ** C4: the cycle table is the list of found cycles sorted by descending
    total weight, stably (equal weights keep discovery order); the table
    shows its first 20 entries, and the count shown is that of all cycles
    found, however many there are. *)
Theorem cycle_table_ranked :
  forall r b, render_cycle_analysis r = Some b ->
  exists G, cycle_graph (productionEdges r) = Some G /\
  let found := collect_cycles G (simple_cycles G 4) [] in
  StronglySorted (fun x y => (snd y <= snd x)%Z) (found_cycles G) /\
  Permutation (found_cycles G) found /\
  (forall k, filter (fun x => Z.eqb (snd x) k) (found_cycles G) =
             filter (fun x => Z.eqb (snd x) k) found) /\
  cy_top b = firstn 20 (found_cycles G) /\
  length (cy_top b) = Nat.min 20 (length found) /\
  cy_found b = length found.
Proof.
  intros r b Hr. unfold render_cycle_analysis in Hr.
  destruct (cycle_graph (productionEdges r)) as [G|]; [|discriminate].
  injection Hr as <-. exists G. split; [reflexivity|]. cbv zeta.
  pose proof (sort_desc_perm snd (collect_cycles G (simple_cycles G 4) [])) as Hp.
  fold (found_cycles G) in Hp.
  split; [apply sort_desc_sorted|]. split; [exact Hp|].
  split; [intros k; apply sort_desc_filter|].
  assert (Hlen : length (firstn 20 (found_cycles G)) =
                 Nat.min 20 (length (collect_cycles G (simple_cycles G 4) [])))
    by (rewrite length_firstn, (Permutation_length Hp); reflexivity).
  split; [reflexivity|]. split; [exact Hlen|].
  exact (Permutation_length Hp).
Qed.

Lemma cycle_table_ranked_witness :
  exists b, render_cycle_analysis k5_result = Some b /\
  cy_found b = 60%nat /\ length (cy_top b) = 20%nat /\
  map snd (cy_top b) =
    [10; 10; 10; 10; 10; 10; 10; 10; 10; 10; 10; 10; 10; 10; 10; 10; 10; 10; 9; 9]%Z.
Proof.
  destruct (render_cycle_analysis k5_result) as [b|] eqn:E;
    [|vm_compute in E; discriminate].
  exists b. split; [reflexivity|].
  destruct (cycle_table_ranked _ _ E) as (G & HG & _ & _ & _ & Htop & Hlen & Hfound).
  vm_compute in HG. injection HG as <-.
  rewrite Hfound, Hlen, Htop. split; [|split]; vm_compute; reflexivity.
Defined.

(** ** C8: with fewer than two snapshots the composition is skipped
    ([None]), whatever the set iteration order. *)
Theorem composition_skipped_below_two :
  forall r order, (length (snapshots r) < 2)%nat -> render_pool_composition r order = None.
Proof.
  intros r order H. unfold render_pool_composition.
  apply Nat.ltb_lt in H. now rewrite H.
Qed.

Lemma composition_skipped_below_two_witness :
  (length (snapshots (mkResult [] [mkSnap 0%Z [("X", 5%Z)] 5%Z 1%Z])) < 2)%nat /\
  render_pool_composition (mkResult [] [mkSnap 0 [("X", 5)] 5 1]) ["X"] = None.
Proof.
  assert (H : (length (snapshots (mkResult [] [mkSnap 0%Z [("X", 5%Z)] 5%Z 1%Z])) < 2)%nat)
    by (simpl; lia).
  split; [exact H | apply composition_skipped_below_two; exact H].
Defined.

Import CompositionFacts.

(** ** C5 (as stated: ties broken by identifier, independently of the set
    iteration order) fails: [X] and [Y] tie, and the ranking follows the
    iteration order of [all_strands], listing [Y] before [X] when the set
    iterates [Y] first. *)
Lemma top_strands_tie_cex :
  set_iteration tie_snaps ["X"; "Y"] /\ set_iteration tie_snaps ["Y"; "X"] /\
  strand_max tie_snaps "X" = strand_max tie_snaps "Y" /\
  top_strands tie_snaps ["X"; "Y"] = ["X"; "Y"] /\
  top_strands tie_snaps ["Y"; "X"] = ["Y"; "X"].
Proof.
  split; [exact set_iteration_tie_XY|]. split; [exact set_iteration_tie_YX|].
  split; [|split]; vm_compute; reflexivity.
Qed.

(** ** C5 (amended): the selected strands are the first 20 of all strands
    ranked by descending maximum count; every selected strand's maximum is
    at least that of every strand left out; ties keep the iteration order
    of the [all_strands] set (a stable sort), not an identifier order. *)
Theorem top_strands_by_max :
  forall snaps order, set_iteration snaps order ->
  let key := strand_max snaps in
  let ranked := sort_desc key order in
  let top := top_strands snaps order in
  top = firstn 20 ranked /\
  StronglySorted (fun a b => (key b <= key a)%Z) top /\
  NoDup top /\
  length top = Nat.min 20 (length order) /\
  (forall s, In s top -> exists sn, In sn snaps /\ In s (Dict.keys (pool sn))) /\
  (forall s t, In s top -> (exists sn, In sn snaps /\ In t (Dict.keys (pool sn))) ->
               ~ In t top -> (key t <= key s)%Z) /\
  (forall k, filter (fun s => Z.eqb (key s) k) ranked = filter (fun s => Z.eqb (key s) k) order).
Proof.
  intros snaps order [Hnd Hall] key ranked top.
  pose proof (sort_desc_perm key order) as Hp. fold ranked in Hp.
  destruct (firstn_sorted _ 20 ranked (sort_desc_sorted key order)) as [Hs Hcross].
  assert (Hsplit : ranked = top ++ skipn 20 ranked) by (symmetry; apply firstn_skipn).
  assert (Hin : forall s, In s top -> In s order).
  { intros s H. apply (Permutation_in _ Hp). rewrite Hsplit. apply in_or_app. now left. }
  split; [reflexivity|]. split; [exact Hs|].
  split.
  { assert (Hr : NoDup ranked) by (eapply Permutation_NoDup; [symmetry; exact Hp | exact Hnd]).
    rewrite Hsplit in Hr. eapply NoDup_app_remove_r; exact Hr. }
  split; [transitivity (Nat.min 20 (length ranked));
          [apply length_firstn | now rewrite (Permutation_length Hp)]|].
  split; [intros s H; apply Hall, Hin, H|].
  split.
  - intros s t Hst Ht Hnt. apply Hall in Ht.
    apply (Permutation_in _ (Permutation_sym Hp)) in Ht.
    rewrite Hsplit in Ht. apply in_app_or in Ht as [Ht|Ht]; [contradiction|].
    exact (Hcross s t Hst Ht).
  - intros k. apply sort_desc_filter.
Qed.

Lemma top_strands_by_max_witness :
  set_iteration tie_snaps ["Y"; "X"] /\
  length (top_strands tie_snaps ["Y"; "X"]) = 2%nat.
Proof.
  split; [exact set_iteration_tie_YX|].
  destruct (top_strands_by_max _ _ set_iteration_tie_YX) as (_ & _ & _ & Hl & _).
  exact Hl.
Defined.

(** ** C6: with at least two snapshots, [other[i]] is snapshot [i]'s
    [poolSize] minus the sum of the selected strands' counts there (0 where
    a strand is absent), unclamped; on the two-snapshot example the series
    is [[0; 0]] for either iteration order of [{X, Y}]. *)
Theorem other_series_residual :
  (forall r order, (2 <= length (snapshots r))%nat ->
   exists b, render_pool_composition r order = Some b /\
   cb_top b = top_strands (snapshots r) order /\
   length (cb_other b) = length (snapshots r) /\
   forall i, (i < length (snapshots r))%nat ->
   nth i (cb_other b) 0%Z =
   (poolSize (nth i (snapshots r) snap0)
    - sum_z (map (pool_get (nth i (snapshots r) snap0)) (cb_top b)))%Z) /\
  option_map cb_other (render_pool_composition (mkResult [] comp_example) ["X"; "Y"])
    = Some [0; 0]%Z /\
  option_map cb_other (render_pool_composition (mkResult [] comp_example) ["Y"; "X"])
    = Some [0; 0]%Z.
Proof.
  split; [|split; vm_compute; reflexivity].
  intros r order H2. unfold render_pool_composition.
  assert (Hb : (length (snapshots r) <? 2)%nat = false) by (apply Nat.ltb_ge; exact H2).
  rewrite Hb.
  eexists; split; [reflexivity|]. cbn [cb_top cb_other].
  split; [reflexivity|]. split.
  - unfold other_series. rewrite length_map, length_combine, length_seq. lia.
  - intros i Hi. apply other_series_nth. exact Hi.
Qed.

Lemma other_series_residual_witness :
  (2 <= length (snapshots (mkResult [] comp_example)))%nat /\
  exists b, render_pool_composition (mkResult [] comp_example) ["X"; "Y"] = Some b.
Proof.
  assert (H : (2 <= length (snapshots (mkResult [] comp_example)))%nat) by (simpl; lia).
  split; [exact H|].
  destruct (proj1 other_series_residual (mkResult [] comp_example) ["X"; "Y"] H)
    as (b & Hb & _).
  exists b. exact Hb.
Defined.

Import CycleFacts.

(** ** C1: every entry [(cycle, totalWeight)] of the cycle list is a simple
    cycle (no node twice) of 2 to 4 nodes, each consecutive edge including
    the closing one is an edge of the graph, and [totalWeight] is the sum of
    their weights; on the ring [A -> B -> C -> A] with weights 1, 2, 3 the
    analysis finds exactly one cycle, of length 3 and weight 6. *)
Theorem found_cycles_simple_weighted :
  (forall G c w, In (c, w) (found_cycles G) ->
   NoDup c /\ (2 <= length c <= 4)%nat /\
   exists ws,
     Forall2 (fun i wi => edge_weight G (nth i c "") (nth ((i + 1) mod length c)%nat c "")
                          = Some wi) (seq 0 (length c)) ws /\
     w = sum_z ws) /\
  (exists b, render_cycle_analysis ring_result = Some b /\ cy_found b = 1%nat /\
             map (fun x => (length (fst x), snd x)) (cy_top b) = [(3%nat, 6%Z)]).
Proof.
  split.
  - intros G c w Hin. unfold found_cycles in Hin.
    apply (Permutation_in _ (sort_desc_perm snd _)) in Hin.
    apply collect_cycles_inv in Hin as [[]|(Hc & Hl & Hw)].
    apply cycles_from_simple in Hc as [Hnd Hle].
    split; [exact Hnd|]. split; [lia|].
    apply cycle_weight_spec, Hw.
  - eexists. split; [vm_compute; reflexivity|]. split; reflexivity.
Qed.

Lemma found_cycles_simple_weighted_witness :
  In (["A"; "B"; "C"], 6%Z) (found_cycles (build_graph ring_edges)) /\
  NoDup ["A"; "B"; "C"].
Proof.
  assert (H : In (["A"; "B"; "C"], 6%Z) (found_cycles (build_graph ring_edges)))
    by (vm_compute; left; reflexivity).
  split; [exact H|].
  exact (proj1 (proj1 found_cycles_simple_weighted _ _ _ H)).
Defined.

(** * Further properties of [quest/viz.py] *)

Module ExtraFacts.
Import DictFacts.

Lemma str_mem_true x l : str_mem x l = true <-> In x l.
Proof.
  unfold str_mem. rewrite existsb_exists. split.
  - intros (y & Hy & E). apply String.eqb_eq in E. now subst.
  - intros H. exists x. split; [exact H | apply String.eqb_refl].
Qed.

Lemma mem_succ_nodes x g : Dict.mem x (succ g) = str_mem x (nodes g).
Proof.
  destruct (Dict.mem x (succ g)) eqn:E; symmetry.
  - apply str_mem_true, mem_keys, E.
  - destruct (str_mem x (nodes g)) eqn:F; [|reflexivity].
    apply str_mem_true, mem_keys in F. congruence.
Qed.

Lemma nodes_add_node_eq x g :
  nodes (add_node x g) = if str_mem x (nodes g) then nodes g else nodes g ++ [x].
Proof.
  unfold add_node. rewrite mem_succ_nodes.
  destruct (str_mem x (nodes g)); [reflexivity|].
  unfold nodes, Dict.keys. simpl. now rewrite map_app.
Qed.

Lemma nodes_add_edge_eq u v w g :
  nodes (add_edge u v w g) = nodes (add_node v (add_node u g)).
Proof.
  unfold add_edge, nodes. simpl. rewrite keys_set.
  replace (Dict.mem u (succ (add_node v (add_node u g)))) with true; [reflexivity|].
  symmetry. apply mem_keys. apply nodes_add_node. right. apply nodes_add_node. now left.
Qed.

Definition first_occ_step (acc : list string) (x : string) : list string :=
  if str_mem x acc then acc else acc ++ [x].

Lemma nodes_fold es g :
  nodes (fold_left add_prod es g) =
  fold_left first_occ_step (flat_map (fun e => [catalyst e; product e]) es) (nodes g).
Proof.
  revert g. induction es as [|e es IH]; simpl; intros g; [reflexivity|].
  rewrite IH. unfold add_prod. rewrite nodes_add_edge_eq, !nodes_add_node_eq.
  reflexivity.
Qed.

Lemma edge_weight_fold_source es g a b w :
  edge_weight (fold_left add_prod es g) a b = Some w ->
  In (mkEdge a b w) es \/ edge_weight g a b = Some w.
Proof.
  revert g. induction es as [|e es IH]; simpl; intros g H; [now right|].
  apply IH in H as [H|H]; [now left; right|].
  unfold add_prod in H. rewrite edge_weight_add_edge in H.
  destruct (String.eqb_spec a (catalyst e)) as [->|]; [|now right].
  destruct (String.eqb_spec b (product e)) as [->|]; [|now right].
  injection H as <-. left; left. destruct e; reflexivity.
Qed.

Lemma edge_weight_build_source es a b w :
  edge_weight (build_graph es) a b = Some w -> In (mkEdge a b w) es.
Proof.
  intros H. rewrite build_graph_fold in H.
  apply edge_weight_fold_source in H as [H|H]; [exact H | discriminate].
Qed.

(** [_pred] holds exactly the reversed edges, without duplicates. *)
Lemma wf_pred_add_edge u v w g :
  wf g ->
  (forall a b, In a (Dict.keys (Dict.get_d b [] (pred g))) -> has_edge g a b = true) ->
  (forall b, NoDup (Dict.keys (Dict.get_d b [] (pred g)))) ->
  (forall a b, In a (Dict.keys (Dict.get_d b [] (pred (add_edge u v w g)))) ->
               has_edge (add_edge u v w g) a b = true) /\
  (forall b, NoDup (Dict.keys (Dict.get_d b [] (pred (add_edge u v w g))))).
Proof.
  intros Hwf Hp Hn.
  (* the two [add_node] steps *)
  assert (Hnode : forall x h, wf h ->
            (forall a b, In a (Dict.keys (Dict.get_d b [] (pred h))) -> has_edge h a b = true) ->
            (forall b, NoDup (Dict.keys (Dict.get_d b [] (pred h)))) ->
            (forall a b, In a (Dict.keys (Dict.get_d b [] (pred (add_node x h)))) ->
                         has_edge (add_node x h) a b = true) /\
            (forall b, NoDup (Dict.keys (Dict.get_d b [] (pred (add_node x h)))))).
  { intros x h (_ & Hpk & _ & _) Hph Hnh. split.
    - intros a b Hab. rewrite has_edge_add_node. apply Hph.
      unfold add_node in Hab. destruct (Dict.mem x (succ h)); [exact Hab|].
      simpl in Hab.
      destruct (in_dec string_dec b (Dict.keys (pred h))) as [Hb|Hb].
      + rewrite get_d_app_in in Hab by exact Hb. exact Hab.
      + unfold Dict.get_d in Hab. rewrite get_app_notin in Hab by exact Hb.
        simpl in Hab. destruct (String.eqb b x); simpl in Hab; contradiction.
    - intros b. unfold add_node. destruct (Dict.mem x (succ h)); [apply Hnh|]. simpl.
      destruct (in_dec string_dec b (Dict.keys (pred h))) as [Hb|Hb].
      + rewrite get_d_app_in by exact Hb. apply Hnh.
      + unfold Dict.get_d. rewrite get_app_notin by exact Hb. simpl.
        destruct (String.eqb b x); constructor. }
  pose proof (wf_add_node u g Hwf) as Hwf1.
  destruct (Hnode u g Hwf Hp Hn) as [Hp1 Hn1].
  destruct (Hnode v _ Hwf1 Hp1 Hn1) as [Hp2 Hn2].
  assert (Hmono : forall a b, has_edge (add_node v (add_node u g)) a b = true ->
                              has_edge (add_edge u v w g) a b = true).
  { intros a b H. rewrite has_edge_add_edge.
    rewrite !has_edge_add_node in H. rewrite H. apply orb_true_r. }
  assert (Huv : has_edge (add_edge u v w g) u v = true)
    by (rewrite has_edge_add_edge, !String.eqb_refl; reflexivity).
  clear Hnode.
  unfold add_edge at 1 3. cbv zeta. cbn [pred]. split.
  - intros a b Hab. destruct (String.eqb_spec b v) as [->|Hbv].
    + rewrite get_d_set_eq in Hab. apply in_keys_set in Hab as [->|Hab]; [exact Huv|].
      apply Hmono, Hp2, Hab.
    + rewrite get_d_set_neq in Hab by exact Hbv. apply Hmono, Hp2, Hab.
  - intros b. destruct (String.eqb_spec b v) as [->|Hbv].
    + rewrite get_d_set_eq. apply nodup_keys_set, Hn2.
    + rewrite get_d_set_neq by exact Hbv. apply Hn2.
Qed.

Lemma wf_pred_build es :
  (forall a b, In a (Dict.keys (Dict.get_d b [] (pred (build_graph es)))) ->
               has_edge (build_graph es) a b = true) /\
  (forall b, NoDup (Dict.keys (Dict.get_d b [] (pred (build_graph es))))).
Proof.
  rewrite build_graph_fold.
  assert (Hgen : forall g, wf g ->
            (forall a b, In a (Dict.keys (Dict.get_d b [] (pred g))) -> has_edge g a b = true) ->
            (forall b, NoDup (Dict.keys (Dict.get_d b [] (pred g)))) ->
            (forall a b, In a (Dict.keys (Dict.get_d b [] (pred (fold_left add_prod es g)))) ->
                         has_edge (fold_left add_prod es g) a b = true) /\
            (forall b, NoDup (Dict.keys (Dict.get_d b [] (pred (fold_left add_prod es g)))))).
  { induction es as [|e es IH]; simpl; intros g Hwf Hp Hn; [split; auto|].
    destruct (wf_pred_add_edge (catalyst e) (product e) (count e) g Hwf Hp Hn) as [Hp' Hn'].
    apply IH; auto. apply wf_add_edge, Hwf. }
  apply Hgen; [apply wf_empty | intros a b H; destruct H | intros b; constructor].
Qed.

Lemma length_flat_map_sum {A B} (f : A -> list B) l :
  length (flat_map f l) = list_sum (map (fun x => length (f x)) l).
Proof. induction l as [|x l IH]; simpl; [reflexivity|]. now rewrite length_app, IH. Qed.

Lemma sum_z_of_nat {A} (f : A -> nat) l :
  sum_z (map (fun x => Z.of_nat (f x)) l) = Z.of_nat (list_sum (map f l)).
Proof. induction l as [|x l IH]; simpl; [reflexivity|]. rewrite IH. lia. Qed.

Lemma nodup_flat_rev_pairs (h : string -> list string) l :
  NoDup l -> (forall u, NoDup (h u)) ->
  NoDup (flat_map (fun u => map (fun v => (v, u)) (h u)) l).
Proof.
  intros Hnd Hh. induction Hnd as [|u ns Hu Hns IH]; simpl; [constructor|].
  apply NoDup_app; auto.
  - apply Finite.Injective_map_NoDup; [|apply Hh].
    intros x y H; now injection H.
  - intros [a b] H1 H2. apply in_map_iff in H1 as (x & Hx & _). injection Hx as _ ->.
    apply in_flat_map in H2 as (u' & Hu' & H2). apply in_map_iff in H2 as (y & Hy & _).
    injection Hy as _ ->. contradiction.
Qed.

Lemma in_first_occ_fold l acc x :
  In x (fold_left first_occ_step l acc) <-> In x acc \/ In x l.
Proof.
  revert acc. induction l as [|y l IH]; simpl; intros acc; [tauto|].
  rewrite IH. unfold first_occ_step.
  destruct (str_mem y acc) eqn:E.
  - apply str_mem_true in E. split; [tauto|]. intros [H|[<-|H]]; auto.
  - rewrite in_app_iff. simpl. tauto.
Qed.

Lemma node_endpoint es n :
  In n (nodes (build_graph es)) ->
  exists e, In e es /\ (n = catalyst e \/ n = product e).
Proof.
  rewrite build_graph_fold, nodes_fold, in_first_occ_fold. simpl.
  intros [[]|H]. apply in_flat_map in H as (e & He & Hn).
  exists e. split; [exact He|]. simpl in Hn. intuition.
Qed.

Lemma get_map_key (f : string -> Z) l k :
  Dict.get k (map (fun n => (n, f n)) l) = if in_dec string_dec k l then Some (f k) else None.
Proof.
  induction l as [|n l IH]; simpl; [reflexivity|].
  destruct (String.eqb_spec k n) as [->|Hkn].
  - destruct (string_dec n n); [reflexivity | congruence].
  - rewrite IH. destruct (in_dec string_dec k l); destruct (string_dec n k); congruence.
Qed.

Lemma fold_max_in l acc : fold_left Z.max l acc = acc \/ In (fold_left Z.max l acc) l.
Proof.
  revert acc. induction l as [|x l IH]; simpl; intros acc; [now left|].
  destruct (IH (Z.max acc x)) as [H|H]; [|now right; right].
  rewrite H. destruct (Z.max_spec acc x) as [[_ ->]|[_ ->]]; [now right; left | now left].
Qed.

Lemma max_or_1_attained (d : list (string * Z)) :
  d <> [] -> exists n, In (n, max_or_1 d) d.
Proof.
  unfold max_or_1, py_max. intros Hd.
  destruct d as [|[n0 x0] d']; [easy|]. simpl.
  destruct (fold_max_in (map snd d') x0) as [H|H].
  - exists n0. rewrite H. now left.
  - apply in_map_iff in H as ([n x] & Hx & Hin). simpl in Hx.
    exists n. right. rewrite <- Hx. exact Hin.
Qed.

Definition out_deg (g : digraph) (n : string) : Z :=
  Z.of_nat (length (Dict.get_d n [] (succ g))).
Definition in_deg (g : digraph) (n : string) : Z :=
  Z.of_nat (length (Dict.get_d n [] (pred g))).

Lemma node_degree_pos es n :
  In n (nodes (build_graph es)) ->
  (1 <= out_deg (build_graph es) n + in_deg (build_graph es) n)%Z.
Proof.
  intros Hn. apply node_endpoint in Hn as (e & He & Hn).
  pose proof (has_edge_build e es He) as Hx.
  destruct (wf_build es) as (_ & _ & _ & Hpe).
  pose proof (Hpe _ _ Hx) as Hp. apply has_edge_inv in Hx as [_ Hs].
  unfold out_deg, in_deg. destruct Hn as [->| ->].
  - apply length_pos_in in Hs. unfold Dict.keys in Hs. rewrite length_map in Hs. lia.
  - apply length_pos_in in Hp. unfold Dict.keys in Hp. rewrite length_map in Hp. lia.
Qed.

Lemma production_graph_some es G :
  production_graph es = Some G -> G = build_graph es /\ nodes G <> [].
Proof.
  unfold production_graph. destruct es as [|e es']; [discriminate|].
  change (fold_left (fun g e => add_edge (catalyst e) (product e) (count e) g)
                    (e :: es') empty_graph) with (build_graph (e :: es')).
  destruct (nodes (build_graph (e :: es'))) eqn:E; [discriminate|].
  intros H. injection H as <-. split; [reflexivity | rewrite E; discriminate].
Qed.

Lemma build_graph_has_node e es : nodes (build_graph (e :: es)) <> [].
Proof.
  pose proof (has_edge_build e (e :: es) (or_introl eq_refl)) as He.
  apply has_edge_inv in He as [Hc _]. intros H. rewrite H in Hc. exact Hc.
Qed.

Lemma edge_weight_get_d g u v w :
  edge_weight g u v = Some w -> Dict.get_d v 0 (Dict.get_d u [] (succ g)) = w.
Proof.
  unfold edge_weight, Dict.get_d. destruct (Dict.get u (succ g)); [|discriminate].
  intros ->. reflexivity.
Qed.

Lemma in_edge_weights g w :
  In w (edge_weights g) -> exists u v, edge_weight g u v = Some w.
Proof.
  unfold edge_weights. intros H. apply in_map_iff in H as ([u v] & <- & Huv).
  apply in_graph_edges in Huv. unfold has_edge in Huv.
  destruct (edge_weight g u v) as [w|] eqn:E; [|discriminate].
  exists u, v. rewrite (edge_weight_get_d _ _ _ _ E). exact E.
Qed.

Lemma max_w_ge g w : In w (edge_weights g) -> (w <= max_w g)%Z.
Proof.
  unfold max_w, py_max. destruct (edge_weights g) as [|x xs]; [easy|].
  intros [->|H]; [apply fold_max_ge_acc | now apply fold_max_ge_in].
Qed.

Lemma fold_set_get_gen {V} (F : string -> V) l d0 k :
  Dict.get k (fold_left (fun d n => Dict.set n (F n) d) l d0) =
  if in_dec string_dec k l then Some (F k) else Dict.get k d0.
Proof.
  revert d0. induction l as [|n l IH]; simpl; intros d0; [reflexivity|].
  rewrite IH. destruct (in_dec string_dec k l) as [Hk|Hk];
    destruct (string_dec n k) as [->|Hnk]; simpl; auto.
  - apply get_set_eq.
  - rewrite get_set_neq by congruence. destruct (in_dec string_dec k l); tauto.
Qed.

Lemma length_substring_0 m s :
  String.length (String.substring 0 m s) = Nat.min m (String.length s).
Proof.
  revert m. induction s as [|c s IH]; intros [|m]; simpl; auto.
Qed.

Lemma length_append_str a b :
  String.length (String.append a b) = (String.length a + String.length b)%nat.
Proof. induction a as [|c a IH]; simpl; auto. Qed.

Lemma has_edge_succ_key g u v :
  In v (Dict.keys (Dict.get_d u [] (succ g))) -> has_edge g u v = true.
Proof.
  unfold has_edge, edge_weight, Dict.get_d.
  destruct (Dict.get u (succ g)) as [nbrs|]; [|simpl; tauto].
  intros H. apply get_in_keys in H as (w & ->). reflexivity.
Qed.

Lemma chain_snoc g p v :
  chain g p -> (0 < length p)%nat ->
  has_edge g (nth (length p - 1) p "") v = true -> chain g (p ++ [v]).
Proof.
  intros Hc Hp He i Hi. rewrite length_app in Hi. simpl in Hi.
  destruct (Nat.lt_ge_cases (S i) (length p)) as [Hlt|Hge].
  - rewrite !app_nth1 by lia. apply Hc, Hlt.
  - rewrite app_nth1 by lia. rewrite app_nth2 by lia.
    replace (S i - length p)%nat with 0%nat by lia. simpl.
    replace i with (length p - 1)%nat by lia. exact He.
Qed.

Lemma search_closed g allowed s k :
  forall path cur c,
  In c (search g allowed s k path cur) ->
  (0 < length path)%nat -> nth 0 path "" = s ->
  nth (length path - 1) path "" = cur -> chain g path ->
  closed_walk g c.
Proof.
  induction k as [|k IH]; simpl; intros path cur c Hc Hp H0 Hl Hch; [contradiction|].
  apply in_app_or in Hc as [Hc|Hc].
  - destruct (has_edge g cur s) eqn:E; simpl in Hc; [|contradiction].
    destruct Hc as [<-|[]]. split; [exact Hp|split; [exact Hch|]].
    rewrite Hl, H0. exact E.
  - apply in_flat_map in Hc as (v & Hv & Hc).
    destruct (str_mem v allowed && negb (str_mem v path)); [|contradiction].
    apply (IH _ v _ Hc).
    + rewrite length_app. simpl. lia.
    + rewrite app_nth1 by exact Hp. exact H0.
    + rewrite length_app. simpl. replace (length path + 1 - 1)%nat with (length path) by lia.
      rewrite app_nth2 by lia. rewrite Nat.sub_diag. reflexivity.
    + apply chain_snoc; [exact Hch | exact Hp |]. rewrite Hl. apply has_edge_succ_key, Hv.
Qed.

Lemma cycles_from_closed g L ns c : In c (cycles_from g L ns) -> closed_walk g c.
Proof.
  induction ns as [|s ns IH]; simpl; intros Hc; [contradiction|].
  apply in_app_or in Hc as [Hc|Hc]; [|exact (IH Hc)].
  apply (search_closed _ _ _ _ _ _ _ Hc); simpl; auto.
  intros i Hi. simpl in Hi. lia.
Qed.

Lemma cycle_weight_closed g c : closed_walk g c -> exists w, cycle_weight g c = Some w.
Proof.
  intros (Hp & Hch & Hcl).
  assert (Hall : forall i, In i (seq 0 (length c)) ->
            has_edge g (nth i c "") (nth ((i + 1) mod length c)%nat c "") = true).
  { intros i Hi. apply in_seq in Hi.
    destruct (Nat.lt_ge_cases (S i) (length c)) as [Hlt|Hge].
    - rewrite Nat.mod_small by lia. rewrite Nat.add_1_r. apply Hch, Hlt.
    - replace (i + 1)%nat with (length c) by lia. rewrite Nat.Div0.mod_same.
      replace i with (length c - 1)%nat by lia. exact Hcl. }
  unfold cycle_weight. cbv zeta. revert Hall.
  generalize (seq 0 (length c)) as l. generalize 0%Z as t.
  intros t l. revert t. induction l as [|i l IH]; simpl; intros t Hall; [eauto|].
  pose proof (Hall i (or_introl eq_refl)) as Hi. unfold has_edge in Hi.
  destruct (edge_weight g (nth i c "") (nth ((i + 1) mod length c)%nat c "")); [|discriminate].
  apply IH. intros j Hj. apply Hall. now right.
Qed.

Lemma collect_cycles_all g cs acc :
  (forall c, In c cs -> exists w, cycle_weight g c = Some w) ->
  map fst (collect_cycles g cs acc) =
  map fst acc ++ filter (fun c => (2 <=? length c)%nat) cs.
Proof.
  revert acc. induction cs as [|c cs IH]; cbn [collect_cycles filter]; intros acc H.
  - now rewrite app_nil_r.
  - destruct (2 <=? length c)%nat.
    + destruct (H c (or_introl eq_refl)) as (w & ->).
      rewrite IH by (intros c' Hc'; apply H; now right).
      rewrite map_app, <- app_assoc. reflexivity.
    + apply IH. intros c' Hc'; apply H; now right.
Qed.

Lemma render_pool_composition_some r order b :
  render_pool_composition r order = Some b ->
  (2 <= length (snapshots r))%nat /\
  cb_top b = top_strands (snapshots r) order /\
  cb_series b = map (fun s => Dict.get_d s []
                        (strand_counts (snapshots r) (top_strands (snapshots r) order)))
                    (top_strands (snapshots r) order) /\
  cb_other b = other_series (snapshots r) (top_strands (snapshots r) order)
                 (strand_counts (snapshots r) (top_strands (snapshots r) order)).
Proof.
  unfold render_pool_composition. destruct (Nat.ltb_spec (length (snapshots r)) 2) as [H|H];
    [discriminate|]. intros E. injection E as <-. simpl. auto.
Qed.

Lemma strand_counts_get snaps top s :
  In s top ->
  Dict.get_d s [] (strand_counts snaps top) = map (fun sn => pool_get sn s) snaps.
Proof.
  intros Hs. unfold Dict.get_d, strand_counts. rewrite fold_set_get.
  destruct (in_dec string_dec s top); [reflexivity | contradiction].
Qed.

Lemma length_other_series snaps top sc : length (other_series snaps top sc) = length snaps.
Proof. unfold other_series. rewrite length_map, length_combine, length_seq. lia. Qed.

Lemma sum_z_map_app {T} (f : T -> Z) l1 l2 :
  sum_z (map f (l1 ++ l2)) = (sum_z (map f l1) + sum_z (map f l2))%Z.
Proof. induction l1 as [|x l1 IH]; simpl; [reflexivity|]. rewrite IH. lia. Qed.

Lemma sum_z_filter_split {T} (f : T -> Z) (p : T -> bool) l :
  sum_z (map f l) = (sum_z (map f (filter p l)) + sum_z (map f (filter (fun x => negb (p x)) l)))%Z.
Proof.
  induction l as [|x l IH]; simpl; [reflexivity|].
  destruct (p x); simpl; rewrite IH; lia.
Qed.

Lemma sum_z_map_ext {T} (f g : T -> Z) l :
  (forall x, In x l -> f x = g x) -> sum_z (map f l) = sum_z (map g l).
Proof. intros H. f_equal. apply map_ext_in, H. Qed.

Lemma sum_z_zero {T} (l : list T) : sum_z (map (fun _ => 0%Z) l) = 0%Z.
Proof. induction l; simpl; lia. Qed.

Lemma sum_get_le (pool : list (string * Z)) ks :
  NoDup ks -> Forall (fun kv => (0 <= snd kv)%Z) pool ->
  (sum_z (map (fun k => Dict.get_d k 0 pool) ks) <= sum_z (map snd pool))%Z.
Proof.
  revert ks. induction pool as [|[k0 v0] pool IH]; intros ks Hnd Hpos.
  - unfold Dict.get_d. simpl. rewrite sum_z_zero. lia.
  - inversion Hpos as [|? ? Hv0 Hrest]; subst. simpl in Hv0.
    rewrite (sum_z_filter_split _ (fun k => String.eqb k k0)).
    assert (Hne : sum_z (map (fun k => Dict.get_d k 0 ((k0, v0) :: pool))
                             (filter (fun x => negb (String.eqb x k0)) ks)) =
                  sum_z (map (fun k => Dict.get_d k 0 pool)
                             (filter (fun x => negb (String.eqb x k0)) ks))).
    { apply sum_z_map_ext. intros k Hk. apply filter_In in Hk as [_ Hk].
      unfold Dict.get_d. simpl. destruct (String.eqb k k0); [discriminate | reflexivity]. }
    rewrite Hne.
    pose proof (IH _ (NoDup_filter (fun x => negb (String.eqb x k0)) Hnd) Hrest) as Hi.
    assert (Heq : forall k, In k (filter (fun k => String.eqb k k0) ks) -> k = k0).
    { intros k Hk. apply filter_In in Hk as [_ Hk]. now apply String.eqb_eq. }
    assert (Hle : (length (filter (fun k => String.eqb k k0) ks) <= 1)%nat).
    { pose proof (NoDup_filter (fun k => String.eqb k k0) Hnd) as Hf.
      destruct (filter (fun k => String.eqb k k0) ks) as [|a [|b l]]; simpl; try lia.
      inversion Hf as [|? ? Hab _]; subst. exfalso. apply Hab.
      rewrite (Heq a), (Heq b) by (simpl; auto). now left. }
    assert (Htot : sum_z (map snd ((k0, v0) :: pool)) = (v0 + sum_z (map snd pool))%Z)
      by reflexivity.
    rewrite Htot. revert Hle Heq.
    destruct (filter (fun k => String.eqb k k0) ks) as [|a [|b l]]; intros Hle Heq.
    + change (sum_z (map (fun k => Dict.get_d k 0 ((k0, v0) :: pool)) [])) with 0%Z. lia.
    + rewrite (Heq a (or_introl eq_refl)).
      change (sum_z (map (fun k => Dict.get_d k 0 ((k0, v0) :: pool)) [k0]))
        with (Dict.get_d k0 0 ((k0, v0) :: pool) + 0)%Z.
      unfold Dict.get_d at 1. simpl Dict.get. rewrite String.eqb_refl. lia.
    + simpl in Hle. lia.
Qed.

Lemma nodup_top_strands snaps order : NoDup order -> NoDup (top_strands snaps order).
Proof.
  intros H. unfold top_strands.
  pose proof (Permutation_NoDup (Permutation_sym (sort_desc_perm (strand_max snaps) order)) H)
    as Hs.
  rewrite <- (firstn_skipn TOP_N) in Hs. apply NoDup_app_remove_r in Hs. exact Hs.
Qed.

Lemma get_append_l i a b :
  (i < String.length a)%nat -> String.get i (String.append a b) = String.get i a.
Proof.
  revert i. induction a as [|c a IH]; simpl; intros i Hi; [lia|].
  destruct i as [|i]; [reflexivity|]. apply IH. lia.
Qed.

Lemma get_substring_0 i m s :
  (i < m)%nat -> String.get i (String.substring 0 m s) = String.get i s.
Proof.
  revert i m. induction s as [|c s IH]; intros i m Hi.
  - destruct m; reflexivity.
  - destruct m as [|m]; [lia|]. destruct i as [|i]; [reflexivity|].
    simpl. apply IH. lia.
Qed.

Lemma substring_append_len a b m :
  String.substring (String.length a) m (String.append a b) = String.substring 0 m b.
Proof. induction a as [|c a IH]; simpl; auto. Qed.

Fixpoint osum (l : list (option Z)) : option Z :=
  match l with
  | [] => Some 0%Z
  | o :: l' => match o, osum l' with Some w, Some t => Some (w + t)%Z | _, _ => None end
  end.

Lemma osum_perm l1 l2 : Permutation l1 l2 -> osum l1 = osum l2.
Proof.
  induction 1 as [|x l1 l2 _ IH|x y l|l1 l2 l3 _ IH1 _ IH2]; simpl.
  - reflexivity.
  - now rewrite IH.
  - destruct x, y, (osum l); try reflexivity. f_equal. lia.
  - congruence.
Qed.

Definition cyc_pairs (c : list string) : list (string * string) :=
  combine c (tl c ++ firstn 1 c).

Lemma fold_none_cw g c l :
  fold_left (fun acc i =>
               match acc with
               | None => None
               | Some t =>
                 match edge_weight g (nth i c "") (nth ((i + 1) mod length c)%nat c "") with
                 | Some w => Some (t + w)%Z
                 | None => None
                 end
               end) l None = None.
Proof. induction l as [|i l IH]; [reflexivity | exact IH]. Qed.

Lemma fold_cw g c l t :
  fold_left (fun acc i =>
               match acc with
               | None => None
               | Some t =>
                 match edge_weight g (nth i c "") (nth ((i + 1) mod length c)%nat c "") with
                 | Some w => Some (t + w)%Z
                 | None => None
                 end
               end) l (Some t) =
  option_map (Z.add t)
    (osum (map (fun i => edge_weight g (nth i c "") (nth ((i + 1) mod length c)%nat c "")) l)).
Proof.
  revert t. induction l as [|i l IH]; intros t.
  - cbn [fold_left map osum option_map]. f_equal. lia.
  - cbn [fold_left map osum].
    destruct (edge_weight g (nth i c "") (nth ((i + 1) mod length c)%nat c "")) as [w|].
    + rewrite IH. destruct (osum _); cbn [option_map]; [f_equal; lia | reflexivity].
    + apply fold_none_cw.
Qed.

Lemma idx_pairs c :
  map (fun i => (nth i c "", nth ((i + 1) mod length c)%nat c "")) (seq 0 (length c)) =
  cyc_pairs c.
Proof.
  destruct c as [|x t]; [reflexivity|]. unfold cyc_pairs. cbn [tl firstn].
  assert (Hlt : length (x :: t) = length (t ++ [x])) by (rewrite length_app; simpl; lia).
  apply nth_ext with (d := (""%string, ""%string)) (d' := (""%string, ""%string)).
  - rewrite length_map, length_seq, length_combine, <- Hlt. lia.
  - intros i Hi. rewrite length_map, length_seq in Hi.
    rewrite (nth_map_default _ _ 0%nat) by (rewrite length_seq; exact Hi).
    rewrite seq_nth by exact Hi. rewrite combine_nth by exact Hlt. simpl (0 + i)%nat.
    f_equal. simpl length in Hi |- *.
    destruct (Nat.lt_ge_cases (S i) (S (length t))) as [Hs|Hs].
    + rewrite Nat.mod_small by lia. rewrite Nat.add_1_r, app_nth1 by lia. reflexivity.
    + assert (i = length t) by lia. subst i.
      replace (length t + 1)%nat with (S (length t)) by lia.
      rewrite Nat.Div0.mod_same, app_nth2, Nat.sub_diag by lia. reflexivity.
Qed.

Lemma cycle_weight_osum g c :
  cycle_weight g c = osum (map (fun p => edge_weight g (fst p) (snd p)) (cyc_pairs c)).
Proof.
  unfold cycle_weight. cbv zeta. rewrite fold_cw, <- idx_pairs, map_map. simpl fst. simpl snd.
  destruct (osum _); reflexivity.
Qed.

Lemma combine_snoc {A B} (a : list A) (b : list B) p q :
  length a = length b -> combine (a ++ [p]) (b ++ [q]) = combine a b ++ [(p, q)].
Proof.
  revert b. induction a as [|x a IH]; intros [|y b] H; simpl in *; try discriminate; auto.
  rewrite IH by lia. reflexivity.
Qed.

Lemma cyc_pairs_rot1 c : Permutation (cyc_pairs (rot1 c)) (cyc_pairs c).
Proof.
  destruct c as [|x [|y t]]; [reflexivity | reflexivity|].
  assert (E1 : cyc_pairs (rot1 (x :: y :: t)) = combine ((y :: t) ++ [x]) ((t ++ [x]) ++ [y]))
    by reflexivity.
  assert (E2 : cyc_pairs (x :: y :: t) = (x, y) :: combine (y :: t) (t ++ [x]))
    by reflexivity.
  rewrite E1, E2, combine_snoc by (simpl; rewrite length_app; simpl; lia).
  apply Permutation_sym, Permutation_cons_append.
Qed.

Lemma rotation_invariant g c c' :
  rotation_of c c' -> cycle_weight g c = cycle_weight g c' /\ length c = length c'.
Proof.
  intros [k ->]. induction k as [|k [IHw IHl]]; [auto|].
  change (Nat.iter (S k) rot1 c') with (rot1 (Nat.iter k rot1 c')).
  rewrite <- IHw, <- IHl. split.
  - rewrite !cycle_weight_osum. apply osum_perm, Permutation_map, cyc_pairs_rot1.
  - destruct (Nat.iter k rot1 c') as [|x t]; [reflexivity|].
    simpl. rewrite length_app. simpl. lia.
Qed.

Definition cycle_row_weight (g : digraph) (c : list string) : list Z :=
  if (2 <=? length c)%nat then
    match cycle_weight g c with Some w => [w] | None => [] end
  else [].

Lemma collect_cycles_weights g cs acc :
  (forall c, In c cs -> exists w, cycle_weight g c = Some w) ->
  map snd (collect_cycles g cs acc) = map snd acc ++ flat_map (cycle_row_weight g) cs.
Proof.
  revert acc. induction cs as [|c cs IH]; cbn [collect_cycles flat_map]; intros acc H.
  - now rewrite app_nil_r.
  - unfold cycle_row_weight at 1. destruct (2 <=? length c)%nat.
    + destruct (H c (or_introl eq_refl)) as (w & Hw). rewrite Hw.
      rewrite IH by (intros c' Hc'; apply H; now right).
      rewrite map_app, <- app_assoc. reflexivity.
    + apply IH. intros c' Hc'; apply H; now right.
Qed.

Lemma perm_flat_map {A B} (f : A -> list B) l1 l2 :
  Permutation l1 l2 -> Permutation (flat_map f l1) (flat_map f l2).
Proof.
  induction 1 as [|x l1 l2 _ IH|x y l|l1 l2 l3 _ IH1 _ IH2]; simpl.
  - constructor.
  - now apply Permutation_app_head.
  - rewrite !app_assoc. apply Permutation_app_tail, Permutation_app_comm.
  - now transitivity (flat_map f l2).
Qed.

Lemma listing_weights g cs :
  nx_cycle_listing g 4 cs ->
  Permutation (map snd (collect_cycles g cs []))
              (flat_map (cycle_row_weight g) (simple_cycles g 4)).
Proof.
  intros (cs0 & Hp & Hf).
  assert (Hrot : forall c, In c cs0 -> exists c', In c' (simple_cycles g 4) /\ rotation_of c c').
  { clear Hp. induction Hf as [|c c' l l' Hr _ IH]; simpl; [contradiction|].
    intros x [<-|Hx]; [exists c'; auto|]. destruct (IH x Hx) as (y & Hy & Hxy). eauto. }
  rewrite collect_cycles_weights.
  - simpl. rewrite (perm_flat_map _ _ _ Hp).
    clear Hp Hrot. induction Hf as [|c c' l l' Hr _ IH]; simpl; [constructor|].
    destruct (rotation_invariant g _ _ Hr) as [Hw Hl].
    unfold cycle_row_weight at 1 3. rewrite Hw, Hl. now apply Permutation_app_head.
  - intros c Hc. apply (Permutation_in _ Hp), Hrot in Hc as (c' & Hc' & Hr).
    destruct (rotation_invariant g _ _ Hr) as [Hw _]. rewrite Hw.
    apply cycle_weight_closed, (cycles_from_closed _ _ _ _ Hc').
Qed.

End ExtraFacts.

Import ExtraFacts.

(** ** X1: [G.nodes] lists the strands in order of first appearance,
    reading each production edge as its catalyst, then its product. *)
Theorem build_graph_nodes_first_appearance :
  forall es, nodes (build_graph es) =
             first_occ (flat_map (fun e => [catalyst e; product e]) es).
Proof. intros es. rewrite build_graph_fold, nodes_fold. reflexivity. Qed.

(** ** X2: the graph has an edge [a -> b] exactly when [(a, b, _)] is among
    the production edges, and every edge weight is the count of one of the
    input edges for that pair. *)
Theorem build_graph_edges_from_input :
  forall es a b,
  (has_edge (build_graph es) a b = true <->
   In (a, b) (map (fun e => (catalyst e, product e)) es)) /\
  (forall w, edge_weight (build_graph es) a b = Some w -> In (mkEdge a b w) es).
Proof.
  intros es a b. split; [|apply edge_weight_build_source].
  split.
  - unfold has_edge. destruct (edge_weight (build_graph es) a b) as [w|] eqn:E;
      [|discriminate].
    intros _. apply edge_weight_build_source in E.
    apply in_map_iff. exists (mkEdge a b w). split; [reflexivity | exact E].
  - intros H. apply in_map_iff in H as (e & He & Hin). injection He as <- <-.
    apply has_edge_build, Hin.
Qed.

Lemma build_graph_edges_from_input_witness :
  edge_weight (build_graph ring_edges) "B" "C" = Some 2%Z /\
  In (mkEdge "B" "C" 2) ring_edges.
Proof.
  assert (H : edge_weight (build_graph ring_edges) "B" "C" = Some 2%Z)
    by (vm_compute; reflexivity).
  split; [exact H | exact (proj2 (build_graph_edges_from_input ring_edges "B" "C") 2%Z H)].
Defined.

(** ** X3: summed over the nodes, the in-degrees of [G.in_degree()] count
    every edge of [G.edges] once and the total degrees of [G.degree()]
    count it twice. *)
Theorem degree_sums_count_edges :
  forall es, let G := build_graph es in
  sum_z (map snd (in_degrees G)) = Z.of_nat (length (graph_edges G)) /\
  sum_z (map snd (degrees G)) = (2 * Z.of_nat (length (graph_edges G)))%Z.
Proof.
  intros es G.
  destruct (wf_build es) as (Hnd & Hpk & Hsn & Hpe). fold G in Hnd, Hpk, Hsn, Hpe.
  destruct (wf_pred_build es) as [Hp Hpn]. fold G in Hp, Hpn.
  set (P := flat_map (fun b => map (fun a => (a, b)) (Dict.keys (Dict.get_d b [] (pred G))))
                     (nodes G)).
  assert (HP : Permutation P (graph_edges G)).
  { apply NoDup_Permutation.
    - apply nodup_flat_rev_pairs; auto.
    - apply nodup_graph_edges, wf_build.
    - intros [a b]. rewrite in_graph_edges. unfold P. rewrite in_flat_map. split.
      + intros (b' & _ & Hb). apply in_map_iff in Hb as (a' & Ha & Hin).
        injection Ha as -> ->. apply Hp, Hin.
      + intros H. exists b. split.
        * rewrite <- Hpk. eapply in_get_d_keys. apply Hpe, H.
        * apply in_map_iff. exists a. split; [reflexivity | apply Hpe, H]. }
  assert (Hin : sum_z (map snd (in_degrees G)) = Z.of_nat (length (graph_edges G))).
  { rewrite <- (Permutation_length HP). unfold in_degrees, P.
    rewrite map_map. simpl. rewrite sum_z_of_nat, length_flat_map_sum.
    do 2 f_equal. apply map_ext. intros b. unfold Dict.keys. now rewrite !length_map. }
  assert (Hout : sum_z (map (fun n => Z.of_nat (length (Dict.get_d n [] (succ G))))
                            (nodes G)) = Z.of_nat (length (graph_edges G))).
  { unfold graph_edges. rewrite sum_z_of_nat, length_flat_map_sum.
    do 2 f_equal. apply map_ext. intros b. unfold Dict.keys. now rewrite !length_map. }
  split; [exact Hin|].
  unfold degrees. rewrite map_map. cbn [snd].
  assert (Hsplit : forall l,
            sum_z (map (fun n => Z.of_nat (length (Dict.get_d n [] (succ G)))
                                 + Z.of_nat (length (Dict.get_d n [] (pred G))))%Z l) =
            (sum_z (map (fun n => Z.of_nat (length (Dict.get_d n [] (succ G)))) l) +
             sum_z (map (fun n => Z.of_nat (length (Dict.get_d n [] (pred G)))) l))%Z).
  { induction l as [|x l IH]; simpl; [reflexivity|]. rewrite IH. lia. }
  rewrite Hsplit, Hout.
  unfold in_degrees in Hin. rewrite map_map in Hin. simpl in Hin. rewrite Hin. lia.
Qed.

(** ** X4: in the drawn production graph every node's size ratio
    [degree / max_deg] lies in [(0, 1]] (every node has degree at least 1)
    and its colour ratio [in_degree / max_in] lies in [[0, 1]] with a
    positive denominator; some node reaches size ratio 1, and some node
    colour ratio 1. *)
Theorem node_ratios_bounded :
  forall r b, render_production_graph r = Some b ->
  Forall (fun p => (1 <= fst p <= snd p)%Z) (gb_size_ratio b) /\
  Forall (fun p => (0 <= fst p <= snd p)%Z /\ (0 < snd p)%Z) (gb_color_ratio b) /\
  Exists (fun p => fst p = snd p) (gb_size_ratio b) /\
  Exists (fun p => fst p = snd p) (gb_color_ratio b).
Proof.
  intros r b Hr. unfold render_production_graph in Hr.
  destruct (production_graph (productionEdges r)) as [G|] eqn:HG; [|discriminate].
  injection Hr as <-. cbn [gb_size_ratio gb_color_ratio].
  apply production_graph_some in HG as [-> Hne].
  set (es := productionEdges r) in *. set (G := build_graph es) in *.
  assert (Hdeg : forall n, In n (nodes G) ->
            Dict.get_d n 0 (degrees G) = (out_deg G n + in_deg G n)%Z).
  { intros n Hn. unfold degrees, Dict.get_d.
    rewrite (get_map_key (fun n => out_deg G n + in_deg G n)%Z).
    destruct (in_dec string_dec n (nodes G)); [reflexivity | contradiction]. }
  assert (Hin : forall n, In n (nodes G) -> Dict.get_d n 0 (in_degrees G) = in_deg G n).
  { intros n Hn. unfold in_degrees, Dict.get_d.
    rewrite (get_map_key (in_deg G)).
    destruct (in_dec string_dec n (nodes G)); [reflexivity | contradiction]. }
  assert (Hdle : forall n, In n (nodes G) -> (out_deg G n + in_deg G n <= max_deg G)%Z).
  { intros n Hn. unfold max_deg. apply (max_or_1_ge _ n).
    unfold degrees. apply in_map_iff. eexists; split; [reflexivity | exact Hn]. }
  assert (Hile : forall n, In n (nodes G) -> (in_deg G n <= max_in G)%Z).
  { intros n Hn. unfold max_in. apply (max_or_1_ge _ n).
    unfold in_degrees. apply in_map_iff. eexists; split; [reflexivity | exact Hn]. }
  assert (Hpos : forall n, In n (nodes G) -> (1 <= out_deg G n + in_deg G n)%Z)
    by (intros n; apply node_degree_pos).
  assert (Hnn : forall n, (0 <= in_deg G n)%Z) by (intros n; unfold in_deg; lia).
  assert (Hex : exists n0, In n0 (nodes G))
    by (destruct (nodes G) as [|n0 ns]; [easy | exists n0; now left]).
  destruct Hex as [n0 Hn0].
  assert (Hmi : (0 < max_in G)%Z).
  { destruct (Z.le_gt_cases 1 (max_in G)) as [H|H]; [lia|].
    (* the in-degree of a product is at least 1 *)
    destruct (node_endpoint es n0 Hn0) as (e & He & _).
    pose proof (has_edge_build e es He) as Hx.
    destruct (wf_build es) as (_ & Hpk & _ & Hpe). fold G in Hx, Hpk, Hpe.
    pose proof (Hpe _ _ Hx) as Hp.
    assert (Hpn : In (product e) (nodes G)) by (rewrite <- Hpk; eapply in_get_d_keys; exact Hp).
    specialize (Hile _ Hpn). unfold in_deg in Hile.
    apply length_pos_in in Hp. unfold Dict.keys in Hp. rewrite length_map in Hp. lia. }
  split; [|split; [|split]].
  - apply Forall_forall. intros p Hp. apply in_map_iff in Hp as (n & <- & Hn).
    simpl. rewrite Hdeg by exact Hn. split; [apply Hpos | apply Hdle]; exact Hn.
  - apply Forall_forall. intros p Hp. apply in_map_iff in Hp as (n & <- & Hn).
    simpl. rewrite Hin by exact Hn. split; [split; [apply Hnn | apply Hile, Hn] | exact Hmi].
  - destruct (max_or_1_attained (degrees G)) as (n & Hn).
    { unfold degrees. intros Hd. apply map_eq_nil in Hd. contradiction. }
    apply Exists_exists. unfold degrees in Hn. apply in_map_iff in Hn as (n' & Heq & Hn').
    injection Heq as <- Hv.
    exists (Dict.get_d n' 0 (degrees G), max_deg G). split.
    + apply in_map_iff. exists n'. split; [reflexivity | exact Hn'].
    + simpl. rewrite Hdeg by exact Hn'. exact Hv.
  - destruct (max_or_1_attained (in_degrees G)) as (n & Hn).
    { unfold in_degrees. intros Hd. apply map_eq_nil in Hd. contradiction. }
    apply Exists_exists. unfold in_degrees in Hn. apply in_map_iff in Hn as (n' & Heq & Hn').
    injection Heq as <- Hv.
    exists (Dict.get_d n' 0 (in_degrees G), max_in G). split.
    + apply in_map_iff. exists n'. split; [reflexivity | exact Hn'].
    + simpl. rewrite Hin by exact Hn'. exact Hv.
Qed.

Lemma node_ratios_bounded_witness :
  render_production_graph ring_result <> None /\
  Exists (fun p => fst p = snd p)
    (match render_production_graph ring_result with
     | Some b => gb_size_ratio b | None => [] end).
Proof.
  destruct (render_production_graph ring_result) as [b|] eqn:E.
  - split; [discriminate|]. exact (proj1 (proj2 (proj2 (node_ratios_bounded _ _ E)))).
  - vm_compute in E. discriminate.
Defined.

(** ** X5: when every [count] of the input is positive, each edge width
    ratio [w / max_w] of the production graph lies in [(0, 1]]: every
    weight read off [G.edges] is the count of an input edge. *)
Theorem edge_width_ratios_bounded :
  forall es, Forall (fun e => (0 < count e)%Z) es ->
  Forall (fun p => (0 < fst p <= snd p)%Z) (edge_width_ratios (build_graph es)).
Proof.
  intros es Hpos. apply Forall_forall. intros p Hp.
  unfold edge_width_ratios in Hp. apply in_map_iff in Hp as (w & <- & Hw). simpl.
  split; [|apply max_w_ge, Hw].
  apply in_edge_weights in Hw as (u & v & E).
  apply edge_weight_build_source in E.
  rewrite Forall_forall in Hpos. exact (Hpos _ E).
Qed.

Lemma edge_width_ratios_bounded_witness :
  Forall (fun e => (0 < count e)%Z) ring_edges /\
  Forall (fun p => (0 < fst p <= snd p)%Z) (edge_width_ratios (build_graph ring_edges)).
Proof.
  assert (H : Forall (fun e => (0 < count e)%Z) ring_edges)
    by (repeat constructor; simpl; lia).
  split; [exact H | exact (edge_width_ratios_bounded ring_edges H)].
Defined.

(** ** X6: [render_production_graph] and [render_cycle_analysis] return
    early exactly when the result has no production edge: a non-empty
    edge list always gives a graph with nodes. *)
Theorem renders_skip_iff_no_edges :
  forall r,
  (render_production_graph r = None <-> productionEdges r = []) /\
  (render_cycle_analysis r = None <-> productionEdges r = []).
Proof.
  intros r. unfold render_production_graph, render_cycle_analysis.
  destruct (productionEdges r) as [|e es] eqn:E.
  - simpl. tauto.
  - unfold production_graph, cycle_graph.
    change (fold_left (fun g e => add_edge (catalyst e) (product e) (count e) g)
                      (e :: es) empty_graph) with (build_graph (e :: es)).
    pose proof (build_graph_has_node e es) as Hn.
    destruct (nodes (build_graph (e :: es))); [easy|].
    split; split; discriminate.
Qed.

(** ** X7: the mutual edges come in pairs: [(u, v)] is listed exactly when
    [(v, u)] is, and both are edges of [G]. *)
Theorem mutual_edges_symmetric :
  forall g u v,
  In (u, v) (mutual_edges g) <->
  In (v, u) (mutual_edges g) /\ has_edge g u v = true /\ has_edge g v u = true.
Proof.
  intros g u v. unfold mutual_edges. rewrite !filter_In, !in_graph_edges. tauto.
Qed.

(** ** X8: the labelled nodes are the [min(25, len(G.nodes))] first nodes
    of [G.nodes] by decreasing degree: no unlabelled node has a larger
    degree than a labelled one, and [labels] maps exactly those nodes to
    their label. *)
Theorem top_nodes_ranked :
  forall g,
  let deg n := Dict.get_d n 0 (degrees g) in
  length (top_nodes g) = Nat.min 25 (length (nodes g)) /\
  incl (top_nodes g) (nodes g) /\
  (forall x y, In x (top_nodes g) -> In y (nodes g) -> ~ In y (top_nodes g) ->
               (deg y <= deg x)%Z) /\
  (forall n, Dict.get n (node_labels g) =
             if in_dec string_dec n (top_nodes g) then Some (node_label n) else None).
Proof.
  intros g deg.
  pose proof (sort_desc_perm deg (nodes g)) as Hp.
  pose proof (sort_desc_sorted deg (nodes g)) as Hs.
  unfold top_nodes. fold deg.
  set (k := Nat.min 25 (length (nodes g))).
  split; [|split; [|split]].
  - rewrite length_firstn, (Permutation_length Hp). unfold k. lia.
  - intros x Hx. apply (Permutation_in _ Hp).
    rewrite <- (firstn_skipn k). apply in_or_app. now left.
  - intros x y Hx Hy Hny.
    apply (Permutation_in _ (Permutation_sym Hp)) in Hy.
    rewrite <- (firstn_skipn k) in Hy. apply in_app_or in Hy as [Hy|Hy]; [contradiction|].
    exact (proj2 (firstn_sorted _ k _ Hs) x y Hx Hy).
  - intros n. unfold node_labels, top_nodes. fold deg k.
    rewrite fold_set_get_gen. destruct (in_dec _ _ _); reflexivity.
Qed.

Lemma top_nodes_ranked_witness :
  In "A" (top_nodes (build_graph ring_edges)) /\
  (Dict.get_d "C" 0 (degrees (build_graph ring_edges)) <=
   Dict.get_d "A" 0 (degrees (build_graph ring_edges)))%Z /\
  ~ In "D" (top_nodes (build_graph ring_edges)).
Proof.
  assert (HA : In "A" (top_nodes (build_graph ring_edges))) by (vm_compute; tauto).
  assert (HD : ~ In "D" (top_nodes (build_graph ring_edges))).
  { vm_compute. intros [H|[H|[H|[]]]]; discriminate. }
  split; [exact HA|split; [|exact HD]].
  destruct (top_nodes_ranked (build_graph ring_edges)) as (_ & Hincl & _).
  pose proof (Hincl "A" HA). vm_compute. discriminate.
Defined.

(** ** X9: a node label has at most 10 characters: a name longer than 10
    becomes its first 8 characters followed by [".."], a shorter one is
    kept as it is. *)
Theorem node_label_short :
  forall n,
  (String.length (node_label n) <= 10)%nat /\
  ((String.length n <= 10)%nat -> node_label n = n) /\
  ((10 < String.length n)%nat ->
   String.length (node_label n) = 10%nat /\
   (forall i, (i < 8)%nat -> String.get i (node_label n) = String.get i n) /\
   String.substring 8 2 (node_label n) = "..").
Proof.
  intros n. unfold node_label.
  destruct (Nat.ltb_spec 10 (String.length n)) as [H|H].
  - assert (Hl : String.length (String.substring 0 8 n) = 8%nat)
      by (rewrite length_substring_0; lia).
    rewrite length_append_str, Hl.
    change (String.length "..") with 2%nat.
    split; [lia|split; [lia|intros _; split; [lia|split]]].
    + intros i Hi. rewrite get_append_l by lia. apply get_substring_0, Hi.
    + rewrite <- Hl at 1. rewrite substring_append_len. reflexivity.
  - split; [exact H|split; [reflexivity|lia]].
Qed.

Lemma node_label_short_witness :
  (10 < String.length "strand_abcdef")%nat /\
  node_label "strand_abcdef" = "strand_a.." /\
  String.length (node_label "strand_abcdef") = 10%nat.
Proof.
  assert (H : (10 < String.length "strand_abcdef")%nat) by (vm_compute; lia).
  split; [exact H|split; [vm_compute; reflexivity|]].
  exact (proj1 (proj2 (proj2 (node_label_short "strand_abcdef")) H)).
Defined.

(** ** X10: the [except Exception: pass] around the cycle loop is never
    taken: [simple_cycles] follows edges of [G] only, so every listed cycle
    closes through edges of [G] and the weight lookups succeed.  [cycles]
    therefore holds every simple cycle with at least two nodes, and the
    title's [len(cycles)] counts them all. *)
Theorem cycle_weights_never_fail :
  forall g,
  map fst (collect_cycles g (simple_cycles g 4) []) =
    filter (fun c => (2 <=? length c)%nat) (simple_cycles g 4) /\
  length (found_cycles g) =
    length (filter (fun c => (2 <=? length c)%nat) (simple_cycles g 4)).
Proof.
  intros g.
  assert (H : map fst (collect_cycles g (simple_cycles g 4) []) =
              filter (fun c => (2 <=? length c)%nat) (simple_cycles g 4)).
  { rewrite collect_cycles_all; [reflexivity|].
    intros c Hc. apply cycle_weight_closed. exact (cycles_from_closed _ _ _ _ Hc). }
  split; [exact H|].
  unfold found_cycles. rewrite (Permutation_length (sort_desc_perm _ _)).
  rewrite <- H, length_map. reflexivity.
Qed.

(** ** X11: the layers of the stacked area chart ([strand_counts] of each
    top strand, then [other]) have one value per snapshot, the layer of a
    top strand holds its pool counts, and the layers of each snapshot add
    up to its [poolSize]. *)
Theorem stack_columns_sum_pool_size :
  forall r order b,
  render_pool_composition r order = Some b ->
  Forall (fun a => length a = length (snapshots r)) (stack_arrays b) /\
  forall i, (i < length (snapshots r))%nat ->
  map (fun a => nth i a 0%Z) (cb_series b) =
    map (pool_get (nth i (snapshots r) snap0)) (cb_top b) /\
  sum_z (map (fun a => nth i a 0%Z) (stack_arrays b)) = poolSize (nth i (snapshots r) snap0).
Proof.
  intros r order b Hb.
  apply render_pool_composition_some in Hb as (_ & Htop & Hser & Hoth).
  set (snaps := snapshots r) in *. set (top := top_strands snaps order) in *.
  assert (Hser' : cb_series b = map (fun s => map (fun sn => pool_get sn s) snaps) top).
  { rewrite Hser. apply map_ext_in. intros s Hs. apply strand_counts_get, Hs. }
  split.
  - unfold stack_arrays. apply Forall_app. split.
    + rewrite Hser'. apply Forall_forall. intros a Ha. apply in_map_iff in Ha as (s & <- & _).
      apply length_map.
    + repeat constructor. rewrite Hoth. apply length_other_series.
  - intros i Hi.
    assert (Hcol : map (fun a => nth i a 0%Z) (cb_series b) =
                   map (pool_get (nth i snaps snap0)) (cb_top b)).
    { rewrite Hser', Htop, map_map. apply map_ext. intros s.
      apply (nth_map_default (fun sn => pool_get sn s)), Hi. }
    split; [exact Hcol|].
    unfold stack_arrays. rewrite sum_z_map_app, Hcol, Htop. simpl.
    rewrite Hoth, other_series_nth by exact Hi. fold top. lia.
Qed.

Lemma stack_columns_sum_pool_size_witness :
  render_pool_composition tie_result ["X"; "Y"] <> None /\
  match render_pool_composition tie_result ["X"; "Y"] with
  | Some b => sum_z (map (fun a => nth 1 a 0%Z) (stack_arrays b)) = 2%Z
  | None => True
  end.
Proof.
  destruct (render_pool_composition tie_result ["X"; "Y"]) as [b|] eqn:E.
  - split; [discriminate|].
    exact (proj2 (proj2 (stack_columns_sum_pool_size _ _ _ E) 1%nat ltac:(vm_compute; lia))).
  - vm_compute in E. discriminate.
Defined.

(** ** X12: when [order] lists the set of strands and snapshot [i] has a
    [poolSize] equal to the total of its non-negative pool counts,
    [other[i]] is not negative: the top strands are distinct, so their
    counts add up to at most the pool total. *)
Theorem other_series_nonneg :
  forall r order b i,
  set_iteration (snapshots r) order ->
  render_pool_composition r order = Some b ->
  (i < length (snapshots r))%nat ->
  consistent_snapshot (nth i (snapshots r) snap0) ->
  (0 <= nth i (cb_other b) 0)%Z.
Proof.
  intros r order b i [Hnd _] Hb Hi (_ & Hpos & Hsz).
  apply render_pool_composition_some in Hb as (_ & _ & _ & Hoth).
  rewrite Hoth, other_series_nth by exact Hi.
  pose proof (sum_get_le (pool (nth i (snapshots r) snap0)) _
                (nodup_top_strands (snapshots r) order Hnd) Hpos) as H.
  unfold pool_get. lia.
Qed.

Lemma other_series_nonneg_witness :
  match render_pool_composition tie_result ["X"; "Y"] with
  | Some b => (0 <= nth 0 (cb_other b) 0)%Z
  | None => False
  end.
Proof.
  destruct (render_pool_composition tie_result ["X"; "Y"]) as [b|] eqn:E.
  - apply (other_series_nonneg tie_result ["X"; "Y"] b 0%nat set_iteration_tie_XY E).
    + vm_compute. lia.
    + split; [|split].
      * vm_compute. constructor; [intros [H|[]]; discriminate | constructor; [tauto|constructor]].
      * repeat constructor; vm_compute; discriminate.
      * vm_compute. reflexivity.
  - vm_compute in E. discriminate.
Defined.

(** ** X13: [strand_max[s]] is the largest count of [s] over the
    snapshots (0 where a pool lacks [s]): no snapshot exceeds it and some
    snapshot reaches it. *)
Theorem strand_max_is_max :
  forall snaps s, snaps <> [] ->
  (forall sn, In sn snaps -> (pool_get sn s <= strand_max snaps s)%Z) /\
  exists sn, In sn snaps /\ pool_get sn s = strand_max snaps s.
Proof.
  intros snaps s Hne. destruct snaps as [|sn0 rest]; [easy|]. unfold strand_max, py_max.
  split.
  - intros sn [<-|Hin]; [apply fold_max_ge_acc|].
    apply fold_max_ge_in, in_map_iff. eauto.
  - destruct (fold_max_in (map (fun sn' => pool_get sn' s) rest) (pool_get sn0 s)) as [H|H].
    + exists sn0. split; [now left | symmetry; exact H].
    + apply in_map_iff in H as (sn & Hsn & Hin). exists sn. split; [now right | exact Hsn].
Qed.

Lemma strand_max_is_max_witness :
  comp_example <> [] /\ strand_max comp_example "Y" = 2%Z /\
  (pool_get (nth 0 comp_example snap0) "Y" <= strand_max comp_example "Y")%Z.
Proof.
  assert (H : comp_example <> []) by discriminate.
  split; [exact H|split; [vm_compute; reflexivity|]].
  apply (proj1 (strand_max_is_max comp_example "Y" H)). simpl. now left.
Defined.

(** ** X14: the stacked area chart gets one legend label per layer (the
    top strands' names cut to 12 characters, then ["other"]), and at most
    21 layers. *)
Theorem legend_matches_layers :
  forall r order b,
  render_pool_composition r order = Some b ->
  length (legend_labels b) = length (stack_arrays b) /\
  (length (stack_arrays b) <= 21)%nat /\
  Forall (fun l => (String.length l <= 12)%nat) (legend_labels b).
Proof.
  intros r order b Hb.
  apply render_pool_composition_some in Hb as (_ & Htop & Hser & _).
  assert (Hlen : length (cb_series b) = length (cb_top b))
    by (rewrite Hser, Htop, length_map; reflexivity).
  assert (Ht : (length (cb_top b) <= 20)%nat)
    by (rewrite Htop; unfold top_strands, TOP_N; rewrite length_firstn; lia).
  unfold legend_labels, stack_arrays. rewrite !length_app, length_map, Hlen.
  split; [reflexivity|split; [simpl; lia|]].
  apply Forall_app. split.
  - apply Forall_forall. intros l Hl. apply in_map_iff in Hl as (s & <- & _).
    rewrite length_substring_0. lia.
  - repeat constructor.
Qed.

Lemma legend_matches_layers_witness :
  match render_pool_composition tie_result ["X"; "Y"] with
  | Some b => length (legend_labels b) = length (stack_arrays b)
  | None => False
  end.
Proof.
  destruct (render_pool_composition tie_result ["X"; "Y"]) as [b|] eqn:E.
  - exact (proj1 (legend_matches_layers _ _ _ E)).
  - vm_compute in E. discriminate.
Defined.

(** ** X15: the cycle table has [min(20, len(cycles))] rows and the
    length column of each row is 2, 3 or 4. *)
Theorem cycle_table_rows :
  forall g,
  length (cycle_table g) = Nat.min 20 (length (found_cycles g)) /\
  Forall (fun row => (2 <= fst (fst row) <= 4)%nat) (cycle_table g).
Proof.
  intros g. unfold cycle_table. split.
  - rewrite length_map, length_firstn. reflexivity.
  - apply Forall_forall. intros row Hrow.
    apply in_map_iff in Hrow as ([c w] & <- & Hin). simpl.
    assert (Hf : In (c, w) (found_cycles g))
      by (rewrite <- (firstn_skipn 20 (found_cycles g)); apply in_or_app; now left).
    clear Hin.
    unfold found_cycles in Hf. apply (Permutation_in _ (sort_desc_perm _ _)) in Hf.
    apply collect_cycles_inv in Hf as [[]|(Hc & H2 & _)].
    apply cycles_from_simple in Hc as [_ H4]. lia.
Qed.

(** ** C7 (as stated: two runs on the same result give identical bundles)
    fails: the composition bundle follows the iteration order of the
    [all_strands] set, and the cycle table follows the rotation in which
    [nx.simple_cycles] lists each cycle; two runs on the same result (under
    different string-hash seeds) can give other bundles. *)
Lemma pipeline_iteration_order_cex :
  nx_run tie_ring_result ["X"; "Y"] [["A"; "B"; "C"]] /\
  nx_run tie_ring_result ["Y"; "X"] [["B"; "C"; "A"]] /\
  snd (fst (pipeline tie_ring_result ["X"; "Y"] [["A"; "B"; "C"]])) <>
    snd (fst (pipeline tie_ring_result ["Y"; "X"] [["B"; "C"; "A"]])) /\
  snd (pipeline tie_ring_result ["X"; "Y"] [["A"; "B"; "C"]]) <>
    snd (pipeline tie_ring_result ["Y"; "X"] [["B"; "C"; "A"]]).
Proof.
  assert (Hl : forall G, cycle_graph ring_edges = Some G ->
                 simple_cycles G 4 = [["A"; "B"; "C"]]).
  { intros G HG. vm_compute in HG. injection HG as <-. vm_compute. reflexivity. }
  split; [|split; [|split]].
  - split; [exact set_iteration_tie_XY|]. intros G HG. unfold nx_cycle_listing. rewrite (Hl G HG).
    exists [["A"; "B"; "C"]]. split; [reflexivity|].
    constructor; [exists 0%nat; reflexivity | constructor].
  - split; [exact set_iteration_tie_YX|]. intros G HG. unfold nx_cycle_listing. rewrite (Hl G HG).
    exists [["B"; "C"; "A"]]. split; [reflexivity|].
    constructor; [exists 1%nat; reflexivity | constructor].
  - vm_compute. intros H. discriminate H.
  - vm_compute. intros H. discriminate H.
Qed.

(** ** C7 (amended): for any two runs on the same result, the graph bundle
    is the same, the cycle table shows the same number of cycles and the
    same column of total weights, the composition is skipped for both or
    for neither, and the [ops], [poolSize] and [uniqueCount] series and the
    ranked sequence of maximum counts of the selected strands coincide;
    which tied strands are selected and in which order, and which rotation
    of each cycle is shown and in which order among equal weights, may
    differ. *)
Theorem pipeline_order_independent_parts :
  forall r o1 o2 cs1 cs2,
  nx_run r o1 cs1 -> nx_run r o2 cs2 ->
  fst (fst (pipeline r o1 cs1)) = fst (fst (pipeline r o2 cs2)) /\
  option_map (fun b => (cy_found b, map snd (cy_top b))) (snd (pipeline r o1 cs1)) =
  option_map (fun b => (cy_found b, map snd (cy_top b))) (snd (pipeline r o2 cs2)) /\
  option_map (fun b => (cb_ops b, cb_pool_sizes b, cb_unique_counts b,
                        map (strand_max (snapshots r)) (cb_top b)))
             (snd (fst (pipeline r o1 cs1))) =
  option_map (fun b => (cb_ops b, cb_pool_sizes b, cb_unique_counts b,
                        map (strand_max (snapshots r)) (cb_top b)))
             (snd (fst (pipeline r o2 cs2))).
Proof.
  intros r o1 o2 cs1 cs2 [H1 C1] [H2 C2]. unfold pipeline. cbn [fst snd].
  split; [reflexivity|]. split.
  - unfold render_cycle_analysis_run.
    destruct (cycle_graph (productionEdges r)) as [G|] eqn:HG; [|reflexivity].
    pose proof (listing_weights G cs1 (C1 G eq_refl)) as P1.
    pose proof (listing_weights G cs2 (C2 G eq_refl)) as P2.
    set (X1 := collect_cycles G cs1 []) in *. set (X2 := collect_cycles G cs2 []) in *.
    assert (Hs : map snd (sort_desc snd X1) = map snd (sort_desc snd X2)).
    { apply sorted_desc_perm_eq.
      - apply sorted_map_key, sort_desc_sorted.
      - apply sorted_map_key, sort_desc_sorted.
      - rewrite (Permutation_map snd (sort_desc_perm snd X1)),
                (Permutation_map snd (sort_desc_perm snd X2)).
        now rewrite P1, P2. }
    cbn [option_map cy_found cy_top]. rewrite <- !firstn_map, Hs.
    f_equal. f_equal.
    rewrite <- (length_map snd (sort_desc snd X1)), <- (length_map snd (sort_desc snd X2)).
    now rewrite Hs.
  - unfold render_pool_composition.
    destruct (length (snapshots r) <? 2)%nat; [reflexivity|]. simpl.
    do 2 f_equal. unfold top_strands. rewrite <- !firstn_map. f_equal.
    set (key := strand_max (snapshots r)).
    apply sorted_desc_perm_eq.
    + apply sorted_map_key, sort_desc_sorted.
    + apply sorted_map_key, sort_desc_sorted.
    + apply Permutation_map.
      rewrite (sort_desc_perm key o1), (sort_desc_perm key o2).
      exact (set_iteration_perm _ _ _ H1 H2).
Qed.

Lemma pipeline_order_independent_parts_witness :
  nx_run tie_ring_result ["X"; "Y"] [["A"; "B"; "C"]] /\
  nx_run tie_ring_result ["Y"; "X"] [["B"; "C"; "A"]] /\
  option_map (fun b => (cy_found b, map snd (cy_top b)))
    (snd (pipeline tie_ring_result ["X"; "Y"] [["A"; "B"; "C"]])) =
  option_map (fun b => (cy_found b, map snd (cy_top b)))
    (snd (pipeline tie_ring_result ["Y"; "X"] [["B"; "C"; "A"]])).
Proof.
  assert (Hl : forall G, cycle_graph ring_edges = Some G ->
                 simple_cycles G 4 = [["A"; "B"; "C"]]).
  { intros G HG. vm_compute in HG. injection HG as <-. vm_compute. reflexivity. }
  assert (R1 : nx_run tie_ring_result ["X"; "Y"] [["A"; "B"; "C"]]).
  { split; [exact set_iteration_tie_XY|]. intros G HG. unfold nx_cycle_listing. rewrite (Hl G HG).
    exists [["A"; "B"; "C"]]. split; [reflexivity|].
    constructor; [exists 0%nat; reflexivity | constructor]. }
  assert (R2 : nx_run tie_ring_result ["Y"; "X"] [["B"; "C"; "A"]]).
  { split; [exact set_iteration_tie_YX|]. intros G HG. unfold nx_cycle_listing. rewrite (Hl G HG).
    exists [["B"; "C"; "A"]]. split; [reflexivity|].
    constructor; [exists 1%nat; reflexivity | constructor]. }
  split; [exact R1|]. split; [exact R2|].
  exact (proj1 (proj2 (pipeline_order_independent_parts _ _ _ _ _ R1 R2))).
Defined.
